(** * RFSoC4x2 spectrum notebooks: the numeric pipeline and the sweep driver

    A shallow embedding of the Python code cells of

    - [boards/RFSoC4x2/base/notebooks/rfdc/02_rf_spectrum_analysis.ipynb]
      (windowing, FFT + fftshift, [freq_to_psd]), and
    - [boards/RFSoC4x2/base/notebooks/rfdc/03_rf_spectrum_sweep.ipynb]
      ([calculate_simple_snr], [calculate_fundamental], [run_spectrum_sweep]).

    Conventions of the embedding.

    - A finite Python/NumPy [float64] is a real number ([R]) and a
      [complex128] a pair of reals: arithmetic on them is exact, rounding,
      overflow and underflow are outside the model, and the inputs of the
      functions are finite.
    - Where the code divides or takes a logarithm without looking at its
      operands ([freq_to_psd]), the result is a float that may be an
      infinity, a NaN or a negative zero ([xreal]): NumPy warns there and
      goes on, it raises nothing.  Python's scalar [float / int] raises
      [ZeroDivisionError] and is modelled as such.
    - A one-dimensional [ndarray] is a [list].
    - A Python exception is a value of [pyexn]; code that can raise returns
      a [result].
    - The hardware collaborators of the sweep (tone generators, spectrum
      analysers, [time.sleep]) are calls of a small free monad ([prog]); an
      environment ([handler]) answers them, and [exec] runs a program against
      an environment and records the trace of calls. *)

From Stdlib Require Import ZArith Reals Lra Lia List Arith Bool Permutation Sorted.
Import ListNotations.
Open Scope R_scope.

(** ** Python exceptions and fallible results *)

Inductive pyexn : Type :=
| ValueError
| IndexError
| ZeroDivisionError
| HardwareError (code : nat).

Inductive result (A : Type) : Type :=
| Ok (a : A)
| Raised (e : pyexn).

Arguments Ok {A} a.
Arguments Raised {A} e.

(** ** Complex numbers ([complex128], idealised) *)

Definition C : Type := (R * R)%type.

Definition RtoC (x : R) : C := (x, 0).
Definition Cre (z : C) : R := fst z.
Definition Cim (z : C) : R := snd z.
Definition Cplus (a b : C) : C := (fst a + fst b, snd a + snd b).
Definition Cmult (a b : C) : C :=
  (fst a * fst b - snd a * snd b, fst a * snd b + snd a * fst b).

(** [abs(z)] of a complex number. *)
Definition Cmod (z : C) : R := sqrt (fst z * fst z + snd z * snd z).

(** [exp(1j * t)]. *)
Definition cis (t : R) : C := (cos t, sin t).

Definition C0 : C := RtoC 0.

(** ** Floats that need not be finite

    What IEEE 754 arithmetic returns from finite operands: [Fin x] is the
    finite float [x] ([Fin 0] the positive zero), [NegZero] is [-0.0],
    [PosInf] and [NegInf] are the infinities. *)

Inductive xreal : Type :=
| Fin (x : R)
| NegZero
| PosInf
| NegInf
| NaN.

(** ** The NumPy operations the notebooks use *)

Module Np.

(** Comparison of two floats as a boolean. *)
Definition ltb (x y : R) : bool := if Rlt_dec x y then true else false.
Definition eqb (x y : R) : bool := if Req_dec_T x y then true else false.

(** [np.sum(a)]. *)
Definition sum (a : list R) : R := fold_right Rplus 0 a.

(** [a ** 2], elementwise. *)
Definition square (a : list R) : list R := map (fun x => x ^ 2) a.

(** [abs(a)] of a complex array, elementwise. *)
Definition abs (a : list C) : list R := map Cmod a.

(** [x * y] of two finite floats.  A product that is zero has the sign of
    its operands multiplied: negative when exactly one of them is. *)
Definition mul (x y : R) : xreal :=
  if eqb (x * y) 0 then
    if xorb (ltb x 0) (ltb y 0) then NegZero else Fin 0
  else Fin (x * y).

(** [x / d] of a finite float by a float.  Dividing by a zero gives an
    infinity of the sign of [x] times the sign of the zero, and [0/0] is
    NaN; a finite float over an infinity is a signed zero. *)
Definition div (x : R) (d : xreal) : xreal :=
  match d with
  | Fin s =>
      if eqb s 0 then
        if ltb 0 x then PosInf else if ltb x 0 then NegInf else NaN
      else if eqb x 0 then
        if ltb s 0 then NegZero else Fin 0
      else Fin (x / s)
  | NegZero => if ltb 0 x then NegInf else if ltb x 0 then PosInf else NaN
  | PosInf => if ltb x 0 then NegZero else Fin 0
  | NegInf => if ltb x 0 then Fin 0 else NegZero
  | NaN => NaN
  end.

(** [a / s] with a scalar [s], elementwise. *)
Definition div_scalar (a : list R) (s : xreal) : list xreal :=
  map (fun x => div x s) a.

(** [s * v] of a finite scalar and a float. *)
Definition mul_scalar (s : R) (v : xreal) : xreal :=
  match v with
  | Fin x => mul s x
  | NegZero => if ltb s 0 then Fin 0 else NegZero
  | PosInf => if ltb 0 s then PosInf else if ltb s 0 then NegInf else NaN
  | NegInf => if ltb 0 s then NegInf else if ltb s 0 then PosInf else NaN
  | NaN => NaN
  end.

(** [s * a] with a scalar [s], elementwise. *)
Definition scale (s : R) (a : list xreal) : list xreal := map (mul_scalar s) a.

(** [v > s]: false of a NaN. *)
Definition gt (v : xreal) (s : R) : bool :=
  match v with
  | Fin x => ltb s x
  | NegZero => ltb s 0
  | PosInf => true
  | NegInf => false
  | NaN => false
  end.

(** [a > s] with a scalar [s], elementwise. *)
Definition gt_scalar (a : list xreal) (s : R) : list bool :=
  map (fun v => gt v s) a.

(** The base-10 logarithm of a positive finite float. *)
Definition log10_pos (x : R) : R := ln x / ln 10.

(** [np.log10]: minus infinity at a zero, NaN below zero (NumPy warns and
    goes on). *)
Definition log10_scalar (v : xreal) : xreal :=
  match v with
  | Fin x => if ltb 0 x then Fin (log10_pos x) else if ltb x 0 then NaN else NegInf
  | NegZero => NegInf
  | PosInf => PosInf
  | NegInf => NaN
  | NaN => NaN
  end.

(** [np.log10(a)] is applied to every element, also to the non-positive
    ones. *)
Definition log10 (a : list xreal) : list xreal := map log10_scalar a.

(** [np.where(cond, a, s)] with an array [a] of the shape of [cond] and a
    scalar [s]. *)
Definition where_ (cond : list bool) (a : list xreal) (s : xreal) : list xreal :=
  map (fun ca : bool * xreal => if fst ca then snd ca else s) (combine cond a).

(** [x * w] for a one-dimensional complex array [x] and a one-dimensional
    real array [w].  NumPy broadcasts: the shapes [(n,)] and [(m,)] are
    compatible when [n = m] or one of them is 1, and the operands cannot be
    broadcast together ([ValueError]) otherwise. *)
Definition multiply (x : list C) (w : list R) : result (list C) :=
  if Nat.eqb (length x) (length w) then
    Ok (map (fun xw => Cmult (fst xw) (RtoC (snd xw))) (combine x w))
  else
    match x, w with
    | _, [w0] => Ok (map (fun xi => Cmult xi (RtoC w0)) x)
    | [x0], _ => Ok (map (fun wi => Cmult x0 (RtoC wi)) w)
    | _, _ => Raised ValueError
    end.

(** [np.max(a)]: [ValueError] on an array of size zero. *)
Fixpoint max_from (m : R) (a : list R) : R :=
  match a with
  | [] => m
  | x :: a' => max_from (Rmax m x) a'
  end.

Definition max (a : list R) : result R :=
  match a with
  | [] => Raised ValueError
  | x :: a' => Ok (max_from x a')
  end.

(** [np.average(a)]: the sum over the number of elements. *)
Definition average (a : list R) : R := sum a / INR (length a).

(** [np.fft.fftshift(a)] on one axis: the array rolled by [n // 2], that is
    [concatenate (a[n - n//2:], a[:n - n//2])]. *)
Definition fftshift {A : Type} (a : list A) : list A :=
  let n := length a in
  skipn (n - n / 2) a ++ firstn (n - n / 2) a.

(** [np.fft.fft(a)]: the forward transform with the default normalisation
    (none): [A[k] = sum_m a[m] * exp(-2j*pi*m*k/n)].  [ValueError] for an
    empty input (invalid number of data points). *)
Fixpoint csum_from (m : nat) (a : list C) (term : nat -> C -> C) : C :=
  match a with
  | [] => C0
  | x :: a' => Cplus (term m x) (csum_from (S m) a' term)
  end.

Definition dft_bin (a : list C) (k : nat) : C :=
  csum_from 0 a
    (fun m x => Cmult x (cis (- (2 * PI * INR m * INR k / INR (length a))))).

Definition fft (a : list C) : result (list C) :=
  match a with
  | [] => Raised ValueError
  | _ => Ok (map (dft_bin a) (seq 0 (length a)))
  end.

(** Insertion of an index into a list of indices ordered by their keys: the
    new index goes after the indices whose keys are not greater. *)
Fixpoint insert_index (key : nat -> R) (i : nat) (sorted : list nat) : list nat :=
  match sorted with
  | [] => [i]
  | j :: rest =>
      if ltb (key i) (key j) then i :: j :: rest
      else j :: insert_index key i rest
  end.

(** One sort that meets what [np.argsort] documents ([argsort_contract]
    below): the indices are inserted from the left, so the indices of equal
    values stay in increasing order.  It stands for [np.argsort] where a
    concrete sort is needed to run the code.  NumPy's own order of equal
    values is not documented and depends on the build; on an array of two
    equal values NumPy returns [[0, 1]], as this sort does. *)
Definition argsort_insertion (a : list R) : list nat :=
  fold_left (fun sorted i => insert_index (fun j => nth j a 0) i sorted)
    (seq 0 (length a)) [].

End Np.

(** What NumPy documents of [np.argsort(a)] with the default [kind]: the
    result is a permutation of the indices of [a] along which the values do
    not decrease.  The order of the indices of equal values is not part of
    it (the default sort is not stable). *)
Definition argsort_contract (argsort : list R -> list nat) : Prop :=
  forall a : list R,
    Permutation (argsort a) (seq 0 (length a)) /\
    StronglySorted Rle (map (fun i => nth i a 0) (argsort a)).

(** ** Python list helpers *)

(** [l[-1:][0]]: the slice keeps the last element, or nothing of an empty
    sequence, and indexing the empty slice raises [IndexError]. *)
Definition last_slice_head {A : Type} (l : list A) : result A :=
  match skipn (length l - 1) l with
  | x :: _ => Ok x
  | [] => Raised IndexError
  end.

(** [l[i::k]] for [k > 0]: the elements at [i], [i+k], [i+2k], ...
    [take_every k c l] walks [l] and keeps an element whenever the countdown
    [c] is zero. *)
Fixpoint take_every {A : Type} (k c : nat) (l : list A) : list A :=
  match l with
  | [] => []
  | x :: l' =>
      match c with
      | O => x :: take_every k (k - 1) l'
      | S c' => take_every k c' l'
      end
  end.

Definition slice_step {A : Type} (i k : nat) (l : list A) : list A :=
  take_every k i l.

(** Sequencing of fallible computations: an exception ends the computation. *)
Definition rbind {A B : Type} (r : result A) (f : A -> result B) : result B :=
  match r with
  | Ok a => f a
  | Raised e => Raised e
  end.

Fixpoint rmap {A B : Type} (f : A -> result B) (l : list A) : result (list B) :=
  match l with
  | [] => Ok []
  | x :: l' => rbind (f x) (fun y => rbind (rmap f l') (fun ys => Ok (y :: ys)))
  end.

(** ** Notebook 02: spectrum analysis *)

(** [cdata[i]*window], the entry that the windowing loop appends to [wdata]. *)
Definition windowed (cdata_i : list C) (window : list R) : result (list C) :=
  Np.multiply cdata_i window.

(** The windowing loop: [for i in range(2, len(channel)):
    wdata.append(cdata[i]*window)], with one capture per channel in [cdata]. *)
Definition wdata (cdata : list (list C)) (window : list R) : result (list (list C)) :=
  rmap (fun cdata_i => windowed cdata_i window) (skipn 2 cdata).

(** [np.fft.fftshift(np.fft.fft(wdata[i]))], the entry appended to [fdata]. *)
Definition spectral_transform (wdata_i : list C) : result (list C) :=
  rbind (Np.fft wdata_i) (fun spectrum => Ok (Np.fftshift spectrum)).

Definition fdata (wdata : list (list C)) : result (list (list C)) :=
  rmap spectral_transform wdata.

(** [freq_to_psd(data, N, fs, window)]:
    [psd = (abs(data)**2)/(fs*np.sum(window**2))], then
    [10*np.where(psd > 0, np.log10(psd), 0)]. *)
Definition freq_to_psd (data : list C) (N : Z) (fs : R) (window : list R)
  : list xreal :=
  let psd := Np.div_scalar (Np.square (Np.abs data))
               (Np.mul fs (Np.sum (Np.square window))) in
  Np.scale 10 (Np.where_ (Np.gt_scalar psd 0) (Np.log10 psd) (Fin 0)).

(** One element of [10*np.where(psd > 0, np.log10(psd), 0)], for the element
    [x] of [abs(data)**2] and the denominator [d]. *)
Definition psd_bin (x : R) (d : xreal) : xreal :=
  Np.mul_scalar 10
    (if Np.gt (Np.div x d) 0 then Np.log10_scalar (Np.div x d) else Fin 0).

(** ** Notebook 03: measurements *)

Section Measurements.

(** The [np.argsort] of the platform. *)
Variable argsort : list R -> list nat.

(** [np.argsort(spectrum)[-1:][0]]. *)
Definition peak_index (spectrum : list R) : result nat :=
  last_slice_head (argsort spectrum).

(** [calculate_simple_snr(spectrum)]. *)
Definition calculate_simple_snr (spectrum : list R) : result R :=
  rbind (Np.max spectrum) (fun peak => Ok (peak - Np.average spectrum)).

(** [calculate_fundamental(spectrum, sample_frequency, number_samples,
    receive_frequency)].  [number_samples] is a Python [int]; dividing the
    Python float [sample_frequency] by zero raises. *)
Definition calculate_fundamental (spectrum : list R) (sample_frequency : R)
    (number_samples : Z) (receive_frequency : R) : result R :=
  if Z.eqb number_samples 0 then Raised ZeroDivisionError
  else
    let rbw := sample_frequency / IZR number_samples in
    rbind (peak_index spectrum) (fun maxindex =>
    Ok (INR maxindex * rbw + receive_frequency - sample_frequency / 2)).

End Measurements.

(** ** Notebook 03: the hardware collaborators *)

Section Collaborators.

(** Handles of the tone generators and of the spectrum analysers. *)
Variables Gen Ana : Type.

(** The calls that return nothing. *)
Inductive command : Type :=
| SetGenEnable (g : Gen) (enable : bool)
    (* generator.amplitude_controller.enable = enable *)
| SetGenGain (g : Gen) (gain : R)
    (* generator.amplitude_controller.gain = gain *)
| SetGenCentre (g : Gen) (f : R)
    (* generator.frequency_selector.centre_frequency = f *)
| Sleep (seconds : R)
    (* time.sleep(seconds) *)
| SetAnaCentre (a : Ana) (f : R)
    (* analyser.frequency_selector.centre_frequency = f *)
| SetPlotCentre (a : Ana) (f : R)
    (* analyser.spectrum_plot.centre_frequency = f *)
| UpdateSpectrum (a : Ana).
    (* analyser.update_spectrum() *)

(** A program over the collaborators: it returns, raises, issues a command
    and goes on, or asks an analyser for its spectrum and goes on with the
    answer.  There is no construct that catches an exception: the notebook
    has no [try]. *)
Inductive prog (A : Type) : Type :=
| Ret (a : A)
| Throw (e : pyexn)
| Do (c : command) (k : prog A)
| GetSpectrum (a : Ana) (k : list R -> prog A).

Arguments Ret {A} a.
Arguments Throw {A} e.
Arguments Do {A} c k.
Arguments GetSpectrum {A} a k.

Fixpoint bind {A B : Type} (p : prog A) (f : A -> prog B) : prog B :=
  match p with
  | Ret a => f a
  | Throw e => Throw e
  | Do c k => Do c (bind k f)
  | GetSpectrum a k => GetSpectrum a (fun spectrum => bind (k spectrum) f)
  end.

(** A fallible pure computation inside a program. *)
Definition lift {A : Type} (r : result A) : prog A :=
  match r with
  | Ok a => Ret a
  | Raised e => Throw e
  end.

(** [for x in xs: body], threading the variables the body assigns. *)
Fixpoint for_each {X S : Type} (xs : list X) (body : X -> S -> prog S) (s : S) : prog S :=
  match xs with
  | [] => Ret s
  | x :: xs' => bind (body x s) (for_each xs' body)
  end.

(** The environment: how the hardware answers each call in a state [W] of
    the world.  Every call may raise. *)
Record handler (W : Type) : Type := {
  on_command : command -> W -> result unit * W;
  on_get_spectrum : Ana -> W -> result (list R) * W
}.

Arguments on_command {W} h c w.
Arguments on_get_spectrum {W} h a w.

(** One call as it happened: the call and its answer. *)
Inductive event : Type :=
| EvDo (c : command) (r : result unit)
| EvGet (a : Ana) (r : result (list R)).

(** Running a program: the trace of calls, the outcome and the final world. *)
Fixpoint exec {W A : Type} (h : handler W) (p : prog A) (w : W)
  : list event * result A * W :=
  match p with
  | Ret a => ([], Ok a, w)
  | Throw e => ([], Raised e, w)
  | Do c k =>
      let (r, w1) := on_command h c w in
      match r with
      | Ok _ => let '(t, o, w2) := exec h k w1 in (EvDo c r :: t, o, w2)
      | Raised e => ([EvDo c r], Raised e, w1)
      end
  | GetSpectrum a k =>
      let (r, w1) := on_get_spectrum h a w in
      match r with
      | Ok spectrum =>
          let '(t, o, w2) := exec h (k spectrum) w1 in (EvGet a r :: t, o, w2)
      | Raised e => ([EvGet a r], Raised e, w1)
      end
  end.

Definition trace_of {W A : Type} (h : handler W) (p : prog A) (w : W) : list event :=
  fst (fst (exec h p w)).

Definition outcome_of {W A : Type} (h : handler W) (p : prog A) (w : W) : result A :=
  snd (fst (exec h p w)).

(** A call of the trace that raised [e]. *)
Definition raised_in (ev : event) (e : pyexn) : Prop :=
  match ev with
  | EvDo _ r => r = Raised e
  | EvGet _ r => r = Raised e
  end.

(** The centre frequencies set on the analysers, in the order of the calls. *)
Fixpoint analyser_settings (t : list event) : list (Ana * R) :=
  match t with
  | [] => []
  | EvDo (SetAnaCentre a f) _ :: t' => (a, f) :: analyser_settings t'
  | _ :: t' => analyser_settings t'
  end.

(** The spectra the analysers returned, in the order of the calls. *)
Fixpoint spectra_returned (t : list event) : list (Ana * list R) :=
  match t with
  | [] => []
  | EvGet a (Ok spectrum) :: t' => (a, spectrum) :: spectra_returned t'
  | _ :: t' => spectra_returned t'
  end.

(** ** Notebook 03: the sweep *)

(** The notebook's globals. *)
Variable argsort : list R -> list nat.
Variable generators : list Gen.
Variable analysers : list Ana.
Variable sample_frequency : R.
Variable number_samples : Z.

Definition frequency_zones : list R := [1228.8; 3686.4].

(** The body of [for generator in generators]. *)
Definition generator_body (amplitude frequency : R) (generator : Gen) (s : unit)
  : prog unit :=
  Do (SetGenEnable generator true)
  (Do (SetGenGain generator amplitude)
  (Do (SetGenCentre generator frequency)
  (Ret s))).

(** The receive centre frequency chosen for a transmit frequency (MHz). *)
Definition receive_frequency_for (frequency : R) : R :=
  if Rlt_dec (frequency * 1e6) sample_frequency
  then nth 0 frequency_zones 0
  else nth 1 frequency_zones 0.

(** The body of [for analyser in analysers]; [acc] holds the lists
    [fundamental] and [snr]. *)
Definition analyser_body (frequency : R) (analyser : Ana) (acc : list R * list R)
  : prog (list R * list R) :=
  let receive_frequency := receive_frequency_for frequency in
  Do (SetAnaCentre analyser receive_frequency)
  (Do (SetPlotCentre analyser (receive_frequency * 1e6))
  (Do (UpdateSpectrum analyser)
  (GetSpectrum analyser (fun spectrum =>
   bind (lift (Np.max spectrum)) (fun maxvalue =>
   bind (lift (peak_index argsort spectrum)) (fun maxindex =>
   bind (lift (calculate_fundamental argsort spectrum sample_frequency
                 number_samples (receive_frequency * 1e6))) (fun f0 =>
   bind (lift (calculate_simple_snr spectrum)) (fun s =>
   Ret (fst acc ++ [f0 * 1e-6], snd acc ++ [s]))))))))).

(** The body of [for frequency in frequencies]. *)
Definition frequency_body (amplitude frequency : R) (acc : list R * list R)
  : prog (list R * list R) :=
  bind (for_each generators (generator_body amplitude frequency) tt) (fun _ =>
  Do (Sleep 1)
  (for_each analysers (analyser_body frequency) acc)).

(** The table of one channel: [np.array([frequencies, fundamental[i::k],
    snr[i::k]])], three rows. *)
Definition result_table (frequencies : list R) (acc : list R * list R) (i : nat)
  : list (list R) :=
  [frequencies;
   slice_step i (length analysers) (fst acc);
   slice_step i (length analysers) (snd acc)].

(** [run_spectrum_sweep(frequencies, amplitude)]. *)
Definition run_spectrum_sweep (frequencies : list R) (amplitude : R)
  : prog (list (list (list R))) :=
  bind (for_each frequencies (frequency_body amplitude) ([], [])) (fun acc =>
  Ret (map (result_table frequencies acc) (seq 0 (length analysers)))).

End Collaborators.

Arguments SetGenEnable {Gen Ana} g enable.
Arguments SetGenGain {Gen Ana} g gain.
Arguments SetGenCentre {Gen Ana} g f.
Arguments Sleep {Gen Ana} seconds.
Arguments SetAnaCentre {Gen Ana} a f.
Arguments SetPlotCentre {Gen Ana} a f.
Arguments UpdateSpectrum {Gen Ana} a.
Arguments Ret {Gen Ana A} a.
Arguments Throw {Gen Ana A} e.
Arguments Do {Gen Ana A} c k.
Arguments GetSpectrum {Gen Ana A} a k.
Arguments bind {Gen Ana A B} p f.
Arguments lift {Gen Ana A} r.
Arguments for_each {Gen Ana X S} xs body s.
Arguments on_command {Gen Ana W} h c w.
Arguments on_get_spectrum {Gen Ana W} h a w.
Arguments EvDo {Gen Ana} c r.
Arguments EvGet {Gen Ana} a r.
Arguments exec {Gen Ana W A} h p w.
Arguments trace_of {Gen Ana W A} h p w.
Arguments outcome_of {Gen Ana W A} h p w.
Arguments raised_in {Gen Ana} ev e.
Arguments analyser_settings {Gen Ana} t.
Arguments spectra_returned {Gen Ana} t.
Arguments generator_body {Gen Ana} amplitude frequency generator s.
Arguments analyser_body {Gen Ana} argsort sample_frequency number_samples
  frequency analyser acc.
Arguments frequency_body {Gen Ana} argsort generators analysers sample_frequency
  number_samples amplitude frequency acc.
Arguments result_table {Ana} analysers frequencies acc i.
Arguments run_spectrum_sweep {Gen Ana} argsort generators analysers
  sample_frequency number_samples frequencies amplitude.

(** ** Simulated collaborators *)

(** A loopback at the notebook's settings (2457.6 Msps, 12288 samples): the
    analysers see the tone that the generators were last set to, as a
    spectrum that is flat at 0 dB but for one peak bin, so high that the peak
    stands 90 dB over the mean.  A tone at [f] MHz of the first Nyquist zone
    falls in bin [f*1e6 / (fs/N)]. *)
Definition loopback_peak : R := 90 * 12288 / 12287.

Definition loopback_spectrum (bin : Z) : list R :=
  repeat 0 (Z.to_nat bin) ++ loopback_peak :: repeat 0 (Z.to_nat (12288 - 1 - bin)).

Definition tone_bin (frequency : R) : Z :=
  Int_part (frequency * 1e6 / (2457.6e6 / 12288)).

(** The state of the world is the frequency the generators were last set to. *)
Definition loopback : handler nat nat R := {|
  on_command := fun c w =>
    match c with
    | SetGenCentre _ f => (Ok tt, f)
    | _ => (Ok tt, w)
    end;
  on_get_spectrum := fun _ w => (Ok (loopback_spectrum (tone_bin w)), w)
|}.

(** Hardware whose analysers fail to capture: [update_spectrum] raises. *)
Definition faulty : handler nat nat unit := {|
  on_command := fun c w =>
    match c with
    | UpdateSpectrum _ => (Raised (HardwareError 7), w)
    | _ => (Ok tt, w)
    end;
  on_get_spectrum := fun _ w => (Ok [1], w)
|}.

(** Hardware that never fails and whose analysers always return the same
    spectrum. *)
Definition constant_spectrum (spectrum : list R) : handler nat nat unit := {|
  on_command := fun _ w => (Ok tt, w);
  on_get_spectrum := fun _ w => (Ok spectrum, w)
|}.

(** ** The vocabulary of the specification *)

(** The window energy in the spec's words: the sum over [k] of [w[k]^2]. *)
Definition window_energy (w : list R) : R :=
  fold_right (fun wk acc => wk * wk + acc) 0 w.

(** The lowest index of the maximum, in the spec's words ([argmax], ties
    broken by first occurrence). *)
Fixpoint first_argmax_from (best : nat) (best_value : R) (i : nat) (a : list R) : nat :=
  match a with
  | [] => best
  | x :: a' =>
      if Rlt_dec best_value x then first_argmax_from i x (S i) a'
      else first_argmax_from best best_value (S i) a'
  end.

Definition first_argmax (a : list R) : nat :=
  match a with
  | [] => O
  | x :: a' => first_argmax_from 0 x 1 a'
  end.

(** The zone rule in the spec's words: the low zone centre (1228.8 MHz) when
    the frequency in Hz is below the sample frequency, the high one
    (3686.4 MHz) otherwise. *)
Definition zone_rule (sample_frequency frequency_MHz : R) : R :=
  if Rlt_dec (frequency_MHz * 1e6) sample_frequency then 1228.8 else 3686.4.

(** The frequency that the spec gives bin [i] of a centred spectrum of [N]
    bins at sample rate [fs], relative to the channel centre. *)
Definition bin_frequency (fs : R) (N i : nat) : R := - fs / 2 + INR i * (fs / INR N).

(** The value at frequency [f] of the spectrum of the samples [y] taken at
    rate [fs]: [sum_m y[m] * exp(-2j*pi*(f/fs)*m)], with no scaling. *)
Definition spectrum_at (y : list C) (fs f : R) : C :=
  Np.csum_from 0 y (fun m x => Cmult x (cis (- (2 * PI * (f / fs) * INR m)))).

(** What the sweep records of the spectrum an analyser returned while the
    generators were at [frequency] (MHz): the fundamental in MHz and the SNR. *)
Definition measured (argsort : list R -> list nat) (sample_frequency : R)
    (number_samples : Z) (frequency : R) (spectrum : list R) (m : R * R) : Prop :=
  exists f0,
    calculate_fundamental argsort spectrum sample_frequency number_samples
      (receive_frequency_for sample_frequency frequency * 1e6) = Ok f0 /\
    fst m = f0 * 1e-6 /\
    calculate_simple_snr spectrum = Ok (snd m).

(** The rounds of a sweep, one per frequency and analyser, with the spectrum
    returned and the measurement recorded in each. *)
Inductive recorded {Ana : Type} (argsort : list R -> list nat)
    (sample_frequency : R) (number_samples : Z)
  : list (R * Ana) -> list (Ana * list R) -> list (R * R) -> Prop :=
| recorded_nil : recorded argsort sample_frequency number_samples [] [] []
| recorded_cons (f : R) (a : Ana) (spectrum : list R) (m : R * R) rounds spectra ms :
    measured argsort sample_frequency number_samples f spectrum m ->
    recorded argsort sample_frequency number_samples rounds spectra ms ->
    recorded argsort sample_frequency number_samples
      ((f, a) :: rounds) ((a, spectrum) :: spectra) (m :: ms).

(** The rounds of a sweep in the order the loops run them. *)
Definition sweep_rounds {Ana : Type} (analysers : list Ana) (frequencies : list R)
  : list (R * Ana) :=
  flat_map (fun f => map (fun a => (f, a)) analysers) frequencies.

(** What a piece of the sweep does to the trace and to the lists
    [fundamental] and [snr] it extends, for the analyser settings [expect]
    and the rounds [rounds] it stands for: the settings made are a prefix of
    [expect]; when the piece ends without an exception they are all of
    [expect], and one measurement per round was appended. *)
Definition advances {Gen Ana W : Type} (h : handler Gen Ana W)
    (argsort : list R -> list nat) (sample_frequency : R) (number_samples : Z)
    (expect : list (Ana * R)) (rounds : list (R * Ana))
    (p : list R * list R -> prog Gen Ana (list R * list R)) : Prop :=
  forall (acc : list R * list R) (w : W),
    (exists rest, expect = analyser_settings (trace_of h (p acc) w) ++ rest) /\
    forall acc', outcome_of h (p acc) w = Ok acc' ->
      analyser_settings (trace_of h (p acc) w) = expect /\
      exists ms,
        recorded argsort sample_frequency number_samples rounds
          (spectra_returned (trace_of h (p acc) w)) ms /\
        acc' = (fst acc ++ map fst ms, snd acc ++ map snd ms).

(** Collaborators that never raise and whose analysers return spectra of at
    least one bin. *)
Definition reliable {Gen Ana W : Type} (h : handler Gen Ana W) : Prop :=
  (forall c w, exists w1, on_command h c w = (Ok tt, w1)) /\
  (forall a w, exists spectrum w1,
     on_get_spectrum h a w = (Ok spectrum, w1) /\ spectrum <> []).

(** ** More of the notebooks *)

(** [np.ones(n)]: the rectangular window, the default [window] of
    [freq_to_psd]. *)
Definition np_ones (n : nat) : list R := repeat 1 n.

(** The loop [for i in range(0, len(fdata)):
    psd.append(freq_to_psd(data=fdata[i], window=window))] of notebook 02. *)
Definition psd (fdata : list (list C)) (N : Z) (fs : R) (window : list R)
  : list (list xreal) :=
  map (fun fdata_i => freq_to_psd fdata_i N fs window) fdata.

(** The analysis cells of notebook 02 in the order they run: the windowing
    loop, the transform loop, the PSD loop. *)
Definition spectrum_analysis (cdata : list (list C)) (N : Z) (fs : R)
    (window : list R) : result (list (list xreal)) :=
  rbind (wdata cdata window) (fun wdata =>
  rbind (fdata wdata) (fun fdata =>
  Ok (psd fdata N fs window))).

Section Scripts.

Context {Gen Ana : Type}.

(** A call without its answer. *)
Inductive call : Type :=
| CallDo (c : command Gen Ana)
| CallGet (a : Ana).

Definition call_of (ev : event Gen Ana) : call :=
  match ev with
  | EvDo c _ => CallDo c
  | EvGet a _ => CallGet a
  end.

(** The calls of [run_spectrum_sweep] as its text lists them: per frequency,
    three settings on every generator, the settling sleep, then two settings,
    an update and a read on every analyser. *)
Definition generator_calls (amplitude frequency : R) (g : Gen) : list call :=
  [CallDo (SetGenEnable g true);
   CallDo (SetGenGain g amplitude);
   CallDo (SetGenCentre g frequency)].

Definition analyser_calls (sample_frequency frequency : R) (a : Ana) : list call :=
  [CallDo (SetAnaCentre a (receive_frequency_for sample_frequency frequency));
   CallDo (SetPlotCentre a (receive_frequency_for sample_frequency frequency * 1e6));
   CallDo (UpdateSpectrum a);
   CallGet a].

Definition round_calls (generators : list Gen) (analysers : list Ana)
    (sample_frequency amplitude frequency : R) : list call :=
  flat_map (generator_calls amplitude frequency) generators
  ++ CallDo (Sleep 1)
  :: flat_map (analyser_calls sample_frequency frequency) analysers.

Definition sweep_calls (generators : list Gen) (analysers : list Ana)
    (sample_frequency amplitude : R) (frequencies : list R) : list call :=
  flat_map (round_calls generators analysers sample_frequency amplitude) frequencies.

(** A program follows a script: in every run the calls made are a prefix of
    the script, and all of it when the run ends without an exception. *)
Definition follows {W A : Type} (h : handler Gen Ana W) (script : list call)
    (p : prog Gen Ana A) : Prop :=
  forall w : W,
    (exists rest, script = map call_of (trace_of h p w) ++ rest) /\
    (forall a, outcome_of h p w = Ok a -> map call_of (trace_of h p w) = script).

(** The events [ev] that end a program with the exception [e] ([deadly ev e]):
    no run in which one of them occurs goes on. *)
Definition fatal {W A : Type} (h : handler Gen Ana W)
    (deadly : event Gen Ana -> pyexn -> Prop) (p : prog Gen Ana A) : Prop :=
  forall (w : W) (ev : event Gen Ana) (e : pyexn),
    In ev (trace_of h p w) -> deadly ev e -> outcome_of h p w = Raised e.

End Scripts.

(** An analyser that returned a spectrum without a bin. *)
Definition empty_spectrum_read {Gen Ana : Type} (ev : event Gen Ana) (e : pyexn)
  : Prop :=
  (exists a, ev = EvGet a (Ok [])) /\ e = ValueError.

(** An analyser that returned any spectrum, with the exception that follows
    when [number_samples] is zero. *)
Definition spectrum_read {Gen Ana : Type} (ev : event Gen Ana) (e : pyexn) : Prop :=
  exists a spectrum,
    ev = EvGet a (Ok spectrum) /\
    e = match spectrum with [] => ValueError | _ => ZeroDivisionError end.

(** The calls a sweep may make: settings on its own generators (enabled,
    at the given amplitude, at a frequency of the list), sleeps of one
    second, and on its own analysers one of the two zone centres (in MHz on
    the frequency selector, in Hz on the plot), updates and reads. *)
Definition sweep_call_allowed {Gen Ana : Type} (generators : list Gen)
    (analysers : list Ana) (amplitude : R) (frequencies : list R)
    (c : @call Gen Ana) : Prop :=
  match c with
  | CallDo (SetGenEnable g enable) => In g generators /\ enable = true
  | CallDo (SetGenGain g gain) => In g generators /\ gain = amplitude
  | CallDo (SetGenCentre g f) => In g generators /\ In f frequencies
  | CallDo (Sleep seconds) => seconds = 1
  | CallDo (SetAnaCentre a f) => In a analysers /\ (f = 1228.8 \/ f = 3686.4)
  | CallDo (SetPlotCentre a f) =>
      In a analysers /\ (f = 1228.8 * 1e6 \/ f = 3686.4 * 1e6)
  | CallDo (UpdateSpectrum a) => In a analysers
  | CallGet a => In a analysers
  end.

(** * Properties *)

(** ** Elementwise array operations *)

Lemma nth_map_in {A B : Type} (f : A -> B) (l : list A) (i : nat) (da : A) (db : B) :
  (i < length l)%nat -> nth i (map f l) db = f (nth i l da).
Proof.
  revert i; induction l as [|x l IH]; intros [|i] Hi; simpl in *; try lia.
  - reflexivity.
  - apply IH; lia.
Qed.

Lemma nth_combine_in {A B : Type} (l : list A) (l' : list B) (i : nat) (da : A) (db : B) :
  (i < length l)%nat -> length l = length l' ->
  nth i (combine l l') (da, db) = (nth i l da, nth i l' db).
Proof.
  revert l' i; induction l as [|x l IH]; intros [|y l'] [|i] Hi Hlen;
    simpl in *; try lia; try reflexivity.
  apply IH; lia.
Qed.

Lemma ltb_true (x y : R) : x < y -> Np.ltb x y = true.
Proof. intros H; unfold Np.ltb; destruct (Rlt_dec x y); [reflexivity | contradiction]. Qed.

Lemma ltb_false (x y : R) : y <= x -> Np.ltb x y = false.
Proof. intros H; unfold Np.ltb; destruct (Rlt_dec x y); [lra | reflexivity]. Qed.

(** ** The centering reorder *)

Lemma fftshift_length {A : Type} (a : list A) : length (Np.fftshift a) = length a.
Proof.
  unfold Np.fftshift.
  rewrite length_app, length_skipn, length_firstn.
  lia.
Qed.

Lemma even_half (n : nat) : Nat.even n = true -> (n - n / 2 = n / 2)%nat.
Proof.
  intros H. apply Nat.even_spec in H. destruct H as [m ->].
  rewrite (Nat.mul_comm 2 m), Nat.div_mul by lia. lia.
Qed.

(** C8: for every vector of even length, the centering reorder [fftshift]
    applied twice gives the vector back. *)
Theorem fftshift_twice_even {A : Type} (a : list A) :
  Nat.even (length a) = true -> Np.fftshift (Np.fftshift a) = a.
Proof.
  intros Heven.
  pose proof (even_half _ Heven) as Hh.
  assert (Hn : (length a = length a / 2 + length a / 2)%nat) by lia.
  unfold Np.fftshift at 1. rewrite fftshift_length, Hh.
  unfold Np.fftshift. rewrite Hh.
  set (m := (length a / 2)%nat) in *.
  assert (Hs : length (skipn m a) = m) by (rewrite length_skipn; lia).
  rewrite <- Hs at 1. rewrite skipn_app, skipn_all, Nat.sub_diag. simpl.
  rewrite <- Hs at 2. rewrite firstn_app, firstn_all, Nat.sub_diag. simpl.
  rewrite app_nil_r. apply firstn_skipn.
Qed.

Lemma fftshift_twice_even_witness :
  Nat.even (length [1; 2; 3; 4]%nat) = true /\
  Np.fftshift (Np.fftshift [1; 2; 3; 4]%nat) = [1; 2; 3; 4]%nat.
Proof.
  split; [reflexivity | apply (fftshift_twice_even [1; 2; 3; 4]%nat); reflexivity].
Defined.

(** On an odd length the reorder is not an involution. *)
Example fftshift_twice_odd :
  Np.fftshift (Np.fftshift [1; 2; 3]%nat) = [2; 3; 1]%nat.
Proof. reflexivity. Qed.

(** ** Windowing *)

(** C3, as the spec states it, fails: a window of one coefficient is
    broadcast over a sample vector of another length, and no error is
    raised. *)
Lemma windowed_length_mismatch_broadcasts :
  length [(1, 0); (2, 0)] <> length [3] /\
  windowed [(1, 0); (2, 0)] [3] = Ok [(3, 0); (6, 0)].
Proof.
  split; [simpl; lia |].
  unfold windowed, Np.multiply, Cmult, RtoC; simpl.
  do 2 f_equal; [| f_equal]; f_equal; lra.
Qed.

(** A vector of length 1 is broadcast over the other operand. *)
Lemma windowed_broadcast_window (x : list C) (w0 : R) :
  length x <> 1%nat ->
  windowed x [w0] = Ok (map (fun xi => Cmult xi (RtoC w0)) x).
Proof.
  intros Hx. unfold windowed, Np.multiply.
  destruct (Nat.eqb_spec (length x) (length [w0])) as [He | _].
  - simpl in He; lia.
  - destruct x as [|x0 [|x1 x']]; reflexivity.
Qed.

Lemma windowed_broadcast_samples (x0 : C) (w : list R) :
  length w <> 1%nat ->
  windowed [x0] w = Ok (map (fun wi => Cmult x0 (RtoC wi)) w).
Proof.
  intros Hw. unfold windowed, Np.multiply.
  destruct (Nat.eqb_spec (length [x0]) (length w)) as [He | _].
  - simpl in He; lia.
  - destruct w as [|w0 [|w1 w']]; [reflexivity | simpl in Hw; lia | reflexivity].
Qed.

(** C3 (amended): for a sample vector [x] and a window [w] of the same
    length N, windowing returns [y] of length N with [y[i] = x[i]*w[i]] for
    every [i < N]; when the lengths differ and neither of them is 1, it
    fails with [ValueError] (the operands cannot be broadcast together).  A
    vector of length 1 is broadcast over the other instead of raising: a
    window [[w0]] gives [y[i] = x[i]*w0] for every sample, a sample vector
    [[x0]] gives [y[i] = x0*w[i]] for every coefficient. *)
Theorem windowed_spec (x : list C) (w : list R) :
  (length x = length w ->
   exists y, windowed x w = Ok y /\ length y = length x /\
     forall i, (i < length x)%nat ->
       nth i y C0 = Cmult (nth i x C0) (RtoC (nth i w 0))) /\
  (length x <> length w -> length x <> 1%nat -> length w <> 1%nat ->
   windowed x w = Raised ValueError) /\
  (forall w0, w = [w0] -> length x <> 1%nat ->
   windowed x w = Ok (map (fun xi => Cmult xi (RtoC w0)) x)) /\
  (forall x0, x = [x0] -> length w <> 1%nat ->
   windowed x w = Ok (map (fun wi => Cmult x0 (RtoC wi)) w)).
Proof.
  split; [| split; [| split]].
  - intros Hlen. unfold windowed, Np.multiply.
    rewrite (proj2 (Nat.eqb_eq _ _) Hlen).
    eexists; split; [reflexivity | split].
    + rewrite length_map, length_combine; lia.
    + intros i Hi.
      rewrite (nth_map_in _ _ i (C0, 0)) by (rewrite length_combine; lia).
      rewrite nth_combine_in by assumption. reflexivity.
  - intros Hne Hx Hw. unfold windowed, Np.multiply.
    rewrite (proj2 (Nat.eqb_neq _ _) Hne).
    destruct x as [|x0 [|x1 x']]; destruct w as [|w0 [|w1 w']];
      simpl in *; try reflexivity; lia.
  - intros w0 -> Hx. apply windowed_broadcast_window. exact Hx.
  - intros x0 -> Hw. apply windowed_broadcast_samples. exact Hw.
Qed.

Lemma windowed_spec_witness :
  (exists y, windowed [(1, 2); (3, 4)] [5; 6] = Ok y /\ length y = 2%nat /\
     forall i, (i < 2)%nat ->
       nth i y C0 = Cmult (nth i [(1, 2); (3, 4)] C0) (RtoC (nth i [5; 6] 0))) /\
  windowed [(1, 2); (3, 4)] [5; 6; 7] = Raised ValueError /\
  windowed [(1, 2); (3, 4)] [5]
    = Ok (map (fun xi => Cmult xi (RtoC 5)) [(1, 2); (3, 4)]) /\
  windowed [(1, 2)] [5; 6; 7]
    = Ok (map (fun wi => Cmult (1, 2) (RtoC wi)) [5; 6; 7]).
Proof.
  split; [| split; [| split]].
  - apply (proj1 (windowed_spec [(1, 2); (3, 4)] [5; 6])). reflexivity.
  - apply (proj1 (proj2 (windowed_spec [(1, 2); (3, 4)] [5; 6; 7]))); simpl; lia.
  - apply (proj1 (proj2 (proj2 (windowed_spec [(1, 2); (3, 4)] [5]))) 5);
      [reflexivity | simpl; lia].
  - apply (proj2 (proj2 (proj2 (windowed_spec [(1, 2)] [5; 6; 7]))) (1, 2));
      [reflexivity | simpl; lia].
Defined.

(** ** Power spectral density *)

Lemma window_energy_sum (w : list R) : Np.sum (Np.square w) = window_energy w.
Proof.
  unfold Np.sum, Np.square, window_energy.
  induction w as [|x w IH]; simpl in *; [reflexivity | rewrite IH; ring].
Qed.

Lemma Cmod_nonneg (z : C) : 0 <= Cmod z.
Proof. unfold Cmod. apply sqrt_pos. Qed.

Lemma sum_square_nonneg (w : list R) : 0 <= Np.sum (Np.square w).
Proof.
  unfold Np.sum, Np.square.
  induction w as [|x w IH]; simpl in *; [lra | nra].
Qed.

Lemma eqb_true (x y : R) : x = y -> Np.eqb x y = true.
Proof. intros H; unfold Np.eqb; destruct (Req_dec_T x y); [reflexivity | contradiction]. Qed.

Lemma eqb_false (x y : R) : x <> y -> Np.eqb x y = false.
Proof. intros H; unfold Np.eqb; destruct (Req_dec_T x y); [contradiction | reflexivity]. Qed.

(** [log10_pos] is the logarithm of base 10. *)
Lemma log10_pos_Rpower (y : R) : Np.log10_pos (Rpower 10 y) = y.
Proof.
  unfold Np.log10_pos, Rpower. rewrite ln_exp.
  assert (0 < ln 10) by (rewrite <- ln_1; apply ln_increasing; lra).
  field; lra.
Qed.

(** The product of finite floats is finite; only the sign of a zero needs
    care. *)
Lemma mul_nonzero (x y : R) : x * y <> 0 -> Np.mul x y = Fin (x * y).
Proof. intros H. unfold Np.mul. rewrite eqb_false by assumption. reflexivity. Qed.

Lemma mul_zero_pos (x y : R) : x * y = 0 -> 0 <= x -> 0 <= y -> Np.mul x y = Fin 0.
Proof.
  intros H Hx Hy. unfold Np.mul.
  rewrite eqb_true, !ltb_false by assumption. reflexivity.
Qed.

Lemma mul_zero_neg (x y : R) : x * y = 0 -> x < 0 -> 0 <= y -> Np.mul x y = NegZero.
Proof.
  intros H Hx Hy. unfold Np.mul.
  rewrite eqb_true, ltb_true, ltb_false by assumption. reflexivity.
Qed.

Lemma mul_scalar_10 (x : R) : Np.mul_scalar 10 (Fin x) = Fin (10 * x).
Proof.
  unfold Np.mul_scalar, Np.mul. destruct (Req_dec_T (10 * x) 0) as [H0 | H0].
  - rewrite eqb_true, !ltb_false by lra. rewrite H0. reflexivity.
  - rewrite eqb_false by assumption. reflexivity.
Qed.

(** [freq_to_psd] bin by bin. *)
Lemma freq_to_psd_map (data : list C) (N : Z) (fs : R) (window : list R) :
  freq_to_psd data N fs window
  = map (fun z => psd_bin (Cmod z ^ 2) (Np.mul fs (Np.sum (Np.square window)))) data.
Proof.
  unfold freq_to_psd, psd_bin, Np.scale, Np.where_, Np.gt_scalar, Np.log10,
    Np.div_scalar, Np.square, Np.abs.
  set (d := Np.mul fs _).
  induction data as [|z data IH]; simpl; [reflexivity |].
  f_equal. exact IH.
Qed.

(** A bin over a denominator that is not zero. *)
Lemma psd_bin_positive (x s : R) :
  0 < x / s -> psd_bin x (Fin s) = Fin (10 * Np.log10_pos (x / s)).
Proof.
  intros Hr.
  assert (Hs : s <> 0) by (intros ->; unfold Rdiv in Hr; rewrite Rinv_0 in Hr; lra).
  assert (Hx : x <> 0) by (intros ->; unfold Rdiv in Hr; lra).
  unfold psd_bin, Np.div.
  rewrite (eqb_false s), (eqb_false x) by assumption.
  unfold Np.gt, Np.log10_scalar. rewrite ltb_true by assumption.
  apply mul_scalar_10.
Qed.

Lemma psd_bin_clamped (x s : R) :
  s <> 0 -> x / s <= 0 -> psd_bin x (Fin s) = Fin 0.
Proof.
  intros Hs Hr.
  assert (H0 : Np.mul_scalar 10 (Fin 0) = Fin 0)
    by (rewrite mul_scalar_10; f_equal; ring).
  unfold psd_bin, Np.div. rewrite (eqb_false s) by assumption.
  destruct (Req_dec_T x 0) as [Hx | Hx].
  - rewrite (eqb_true x) by assumption.
    destruct (Np.ltb s 0); unfold Np.gt; rewrite ltb_false by lra; exact H0.
  - rewrite (eqb_false x) by assumption.
    unfold Np.gt. rewrite ltb_false by assumption. exact H0.
Qed.

(** What the clamp replaces: at a ratio that is not positive [np.log10]
    has no finite value to give. *)
Lemma log10_of_nonpositive_ratio (x s : R) :
  s <> 0 -> x / s <= 0 ->
  Np.log10_scalar (Np.div x (Fin s)) = NegInf \/
  Np.log10_scalar (Np.div x (Fin s)) = NaN.
Proof.
  intros Hs Hr. unfold Np.div. rewrite (eqb_false s) by assumption.
  destruct (Req_dec_T x 0) as [Hx | Hx].
  - rewrite (eqb_true x) by assumption. left.
    destruct (Np.ltb s 0); [reflexivity |].
    unfold Np.log10_scalar. rewrite !ltb_false by lra. reflexivity.
  - rewrite (eqb_false x) by assumption. right.
    assert (x / s <> 0).
    { intros E. apply Hx. replace x with (x / s * s) by (field; assumption).
      rewrite E. ring. }
    unfold Np.log10_scalar. rewrite ltb_false, ltb_true by lra. reflexivity.
Qed.

(** A bin over a zero denominator: the quotient is an infinity or a NaN. *)
Lemma psd_bin_zero_pos (x : R) : 0 < x -> psd_bin x (Fin 0) = PosInf.
Proof.
  intros Hx. unfold psd_bin, Np.div.
  rewrite eqb_true, ltb_true by (first [reflexivity | assumption]).
  unfold Np.gt, Np.log10_scalar, Np.mul_scalar. rewrite ltb_true by lra.
  reflexivity.
Qed.

Lemma psd_bin_zero_zero (d : xreal) : d = Fin 0 \/ d = NegZero -> psd_bin 0 d = Fin 0.
Proof.
  assert (H0 : Np.mul_scalar 10 (Fin 0) = Fin 0)
    by (rewrite mul_scalar_10; f_equal; ring).
  intros [-> | ->]; unfold psd_bin, Np.div.
  - rewrite eqb_true, !ltb_false by (first [reflexivity | lra]). exact H0.
  - rewrite !ltb_false by lra. exact H0.
Qed.

Lemma psd_bin_negzero_pos (x : R) : 0 < x -> psd_bin x NegZero = Fin 0.
Proof.
  intros Hx. unfold psd_bin, Np.div. rewrite ltb_true by assumption.
  unfold Np.gt. rewrite mul_scalar_10. f_equal; ring.
Qed.

(** C2: for every bin value [z] of the input with magnitude [a = |z|],
    sample rate [fs] and window [w] of energy [E = sum_k w[k]^2],
    [freq_to_psd] returns at that bin [10*log10(a^2/(fs*E))] when the ratio
    [a^2/(fs*E)] is positive, and exactly 0 (a finite zero: not minus
    infinity, not a NaN) when it is not.  When [fs*E] is zero the ratio is
    not a real number: the floats make it plus infinity for [a > 0] and
    [fs >= 0], a positive ratio whose [10*log10] is plus infinity again, and
    minus infinity or a NaN otherwise, which are not positive, and the bin
    reads 0. *)
Theorem freq_to_psd_bin (data : list C) (N : Z) (fs : R) (window : list R) (i : nat) :
  (i < length data)%nat ->
  let a := Cmod (nth i data C0) in
  let E := window_energy window in
  let out := nth i (freq_to_psd data N fs window) (Fin 0) in
  (fs * E <> 0 ->
   (0 < a ^ 2 / (fs * E) -> out = Fin (10 * (ln (a ^ 2 / (fs * E)) / ln 10))) /\
   (a ^ 2 / (fs * E) <= 0 -> out = Fin 0)) /\
  (fs * E = 0 ->
   (0 < a -> 0 <= fs -> out = PosInf) /\
   (a = 0 \/ fs < 0 -> out = Fin 0)).
Proof.
  intros Hi a E out. unfold out.
  rewrite freq_to_psd_map, (nth_map_in _ _ i C0) by assumption.
  pose proof (sum_square_nonneg window) as HE.
  rewrite window_energy_sum in *. fold E in HE |- *. fold a.
  split; intros Hd.
  - rewrite mul_nonzero by assumption. split; intros Hr.
    + apply psd_bin_positive. exact Hr.
    + apply psd_bin_clamped; assumption.
  - split.
    + intros Ha Hfs. rewrite mul_zero_pos by assumption.
      apply psd_bin_zero_pos. nra.
    + intros Hcase. destruct (Rlt_dec fs 0) as [Hneg | Hpos].
      * rewrite mul_zero_neg by assumption.
        destruct (Req_dec_T a 0) as [Ha | Ha].
        -- rewrite Ha. replace (0 ^ 2) with 0 by ring.
           apply psd_bin_zero_zero. right; reflexivity.
        -- apply psd_bin_negzero_pos.
           pose proof (Cmod_nonneg (nth i data C0)) as Hnn. fold a in Hnn. nra.
      * destruct Hcase as [Ha | Hfs]; [| lra].
        rewrite mul_zero_pos by (first [assumption | lra]).
        rewrite Ha. replace (0 ^ 2) with 0 by ring.
        apply psd_bin_zero_zero. left; reflexivity.
Qed.

Lemma freq_to_psd_bin_witness :
  (nth 0 (freq_to_psd [(3, 4); (0, 0)] 2 1 [1; 1]) (Fin 0)
     = Fin (10 * (ln (Cmod (3, 4) ^ 2 / (1 * window_energy [1; 1])) / ln 10)) /\
   nth 1 (freq_to_psd [(3, 4); (0, 0)] 2 1 [1; 1]) (Fin 0) = Fin 0) /\
  nth 0 (freq_to_psd [(3, 4); (0, 0)] 2 1 [0; 0]) (Fin 0) = PosInf /\
  nth 1 (freq_to_psd [(3, 4); (0, 0)] 2 1 [0; 0]) (Fin 0) = Fin 0.
Proof.
  assert (H34 : Cmod (3, 4) = 5).
  { unfold Cmod; simpl. replace (3 * 3 + 4 * 4) with (5 * 5) by lra.
    apply sqrt_square; lra. }
  assert (H00 : Cmod (0, 0) = 0).
  { unfold Cmod; simpl. replace (0 * 0 + 0 * 0) with 0 by lra. apply sqrt_0. }
  assert (HE1 : 1 * window_energy [1; 1] <> 0) by (unfold window_energy; simpl; lra).
  assert (HE0 : 1 * window_energy [0; 0] = 0) by (unfold window_energy; simpl; lra).
  split; [split | split].
  - apply (proj1 (proj1 (freq_to_psd_bin [(3, 4); (0, 0)] 2 1 [1; 1] 0
                           ltac:(simpl; lia)) HE1)).
    simpl nth. rewrite H34. unfold window_energy; simpl. lra.
  - apply (proj2 (proj1 (freq_to_psd_bin [(3, 4); (0, 0)] 2 1 [1; 1] 1
                           ltac:(simpl; lia)) HE1)).
    simpl nth. rewrite H00. unfold window_energy; simpl. lra.
  - apply (proj1 (proj2 (freq_to_psd_bin [(3, 4); (0, 0)] 2 1 [0; 0] 0
                           ltac:(simpl; lia)) HE0)).
    + simpl nth. rewrite H34. lra.
    + lra.
  - apply (proj2 (proj2 (freq_to_psd_bin [(3, 4); (0, 0)] 2 1 [0; 0] 1
                           ltac:(simpl; lia)) HE0)).
    left. exact H00.
Defined.

(** C10: [freq_to_psd] validates no shape.  Its [N] has no effect, the
    window enters only through the sum of its squared coefficients, a window
    of another length than the data raises nothing (the function is total),
    and the output has the length of the data. *)
Theorem freq_to_psd_shape_blind (data : list C) (N N' : Z) (fs : R)
    (window window' : list R) :
  Np.sum (Np.square window) = Np.sum (Np.square window') ->
  freq_to_psd data N fs window = freq_to_psd data N' fs window' /\
  length (freq_to_psd data N fs window) = length data.
Proof.
  intros HE. split.
  - rewrite !freq_to_psd_map, HE. reflexivity.
  - rewrite freq_to_psd_map. apply length_map.
Qed.

Lemma freq_to_psd_shape_blind_witness :
  freq_to_psd [(3, 4); (0, 0); (1, 1)] 3 2 [1; 0]
    = freq_to_psd [(3, 4); (0, 0); (1, 1)] 12288 2 [0; 0; 0; 1] /\
  length (freq_to_psd [(3, 4); (0, 0); (1, 1)] 3 2 [1; 0]) = 3%nat.
Proof.
  apply (freq_to_psd_shape_blind [(3, 4); (0, 0); (1, 1)] 3 12288 2 [1; 0] [0; 0; 0; 1]).
  unfold Np.sum, Np.square; simpl. lra.
Defined.

(** ** The measurements of the sweep *)

Lemma max_from_ge (m : R) (a : list R) : m <= Np.max_from m a.
Proof.
  revert m; induction a as [|x a IH]; intros m; simpl; [lra |].
  eapply Rle_trans; [apply (Rmax_l m x) | apply IH].
Qed.

Lemma max_from_upper (m : R) (a : list R) (x : R) : In x a -> x <= Np.max_from m a.
Proof.
  revert m; induction a as [|y a IH]; intros m Hin; simpl in *; [contradiction |].
  destruct Hin as [-> | Hin].
  - eapply Rle_trans; [apply (Rmax_r m x) | apply max_from_ge].
  - apply IH; assumption.
Qed.

Lemma max_from_in (m : R) (a : list R) : Np.max_from m a = m \/ In (Np.max_from m a) a.
Proof.
  revert m; induction a as [|y a IH]; intros m; simpl; [left; reflexivity |].
  destruct (IH (Rmax m y)) as [H | H].
  - rewrite H. unfold Rmax. destruct (Rle_dec m y); [right; left | left]; reflexivity.
  - right; right; assumption.
Qed.

(** [np.max] of a non-empty array is its greatest element. *)
Lemma np_max_spec (a : list R) :
  a <> [] ->
  exists peak, Np.max a = Ok peak /\ In peak a /\ forall x, In x a -> x <= peak.
Proof.
  destruct a as [|x a]; [congruence | intros _].
  exists (Np.max_from x a). split; [reflexivity | split].
  - destruct (max_from_in x a) as [H | H]; [rewrite H; left; reflexivity | right; assumption].
  - intros y [<- | Hy]; [apply max_from_ge | apply max_from_upper; assumption].
Qed.

Lemma sum_app (a b : list R) : Np.sum (a ++ b) = Np.sum a + Np.sum b.
Proof.
  unfold Np.sum; induction a as [|x a IH]; simpl; [ring | rewrite IH; ring].
Qed.

Lemma sum_repeat (x : R) (n : nat) : Np.sum (repeat x n) = INR n * x.
Proof.
  unfold Np.sum; induction n as [|n IH]; [simpl; ring |].
  rewrite S_INR. simpl. rewrite IH. ring.
Qed.

Lemma calculate_simple_snr_max_mean (spectrum : list R) :
  spectrum <> [] ->
  exists peak,
    calculate_simple_snr spectrum
      = Ok (peak - Np.sum spectrum / INR (length spectrum)) /\
    In peak spectrum /\ forall x, In x spectrum -> x <= peak.
Proof.
  intros Hne.
  destruct (np_max_spec spectrum Hne) as (peak & Hmax & Hin & Hub).
  exists peak. unfold calculate_simple_snr. rewrite Hmax. simpl.
  unfold Np.average. auto.
Qed.

Lemma calculate_simple_snr_flat_floor (F H : R) (before after : nat) :
  F <= H ->
  calculate_simple_snr (repeat F before ++ H :: repeat F after)
  = Ok (H - ((INR (length (repeat F before ++ H :: repeat F after)) - 1) * F + H)
            / INR (length (repeat F before ++ H :: repeat F after))).
Proof.
  intros HFH.
  set (spectrum := repeat F before ++ H :: repeat F after).
  set (N := INR (length spectrum)).
  destruct (calculate_simple_snr_max_mean spectrum) as (peak & Hsnr & Hin & Hub).
  { unfold spectrum. destruct before; discriminate. }
  assert (Hpeak : peak = H).
  { assert (H <= peak)
      by (apply Hub; unfold spectrum; apply in_or_app; right; left; reflexivity).
    unfold spectrum in Hin. apply in_app_or in Hin.
    destruct Hin as [Hin | [Hin | Hin]];
      [apply repeat_spec in Hin | | apply repeat_spec in Hin]; lra. }
  rewrite Hsnr, Hpeak. f_equal. f_equal.
  assert (HN : N = INR before + INR after + 1).
  { unfold N, spectrum. rewrite length_app. simpl. rewrite !repeat_length.
    rewrite plus_INR, S_INR. ring. }
  fold N. unfold spectrum. rewrite sum_app. unfold Np.sum at 2. simpl.
  fold (Np.sum (repeat F after)). rewrite !sum_repeat.
  f_equal. rewrite HN. ring.
Qed.

(** C4: for every (non-empty) spectrum, [calculate_simple_snr] returns the
    maximum of the spectrum minus the mean of all its bins, the peak bin
    included; for a spectrum of N bins that is a flat floor [F] but for one
    bin of peak value [H], that is [H - ((N-1)*F + H)/N]. *)
Theorem calculate_simple_snr_spec :
  (forall spectrum : list R, spectrum <> [] ->
     exists peak,
       calculate_simple_snr spectrum
         = Ok (peak - Np.sum spectrum / INR (length spectrum)) /\
       In peak spectrum /\ forall x, In x spectrum -> x <= peak) /\
  (forall (F H : R) (before after : nat), F <= H ->
     let spectrum := repeat F before ++ H :: repeat F after in
     let N := INR (length spectrum) in
     calculate_simple_snr spectrum = Ok (H - ((N - 1) * F + H) / N)).
Proof.
  split.
  - exact calculate_simple_snr_max_mean.
  - intros F H before after HFH spectrum N.
    apply calculate_simple_snr_flat_floor. exact HFH.
Qed.

Lemma calculate_simple_snr_spec_witness :
  (exists peak,
     calculate_simple_snr [1; 5; 3]
       = Ok (peak - Np.sum [1; 5; 3] / INR (length [1; 5; 3])) /\
     In peak [1; 5; 3] /\ forall x, In x [1; 5; 3] -> x <= peak) /\
  calculate_simple_snr (repeat 2 2 ++ 10 :: repeat 2 1)
    = Ok (10 - ((INR (length (repeat 2 2 ++ 10 :: repeat 2 1)) - 1) * 2 + 10)
               / INR (length (repeat 2 2 ++ 10 :: repeat 2 1))).
Proof.
  split.
  - apply (proj1 calculate_simple_snr_spec [1; 5; 3]). discriminate.
  - apply (proj2 calculate_simple_snr_spec 2 10 2%nat 1%nat). lra.
Defined.

(** On an empty spectrum [np.max] raises and so does the estimator. *)
Lemma calculate_simple_snr_empty : calculate_simple_snr [] = Raised ValueError.
Proof. reflexivity. Qed.

(** *** The peak index *)

Lemma last_slice_head_last {A : Type} (l : list A) (d : A) :
  l <> [] -> last_slice_head l = Ok (last l d).
Proof.
  intros Hne. unfold last_slice_head.
  assert (H : skipn (length l - 1) l = [last l d]).
  { destruct (@exists_last _ l Hne) as (l' & z & ->).
    rewrite last_last, length_app. simpl length.
    replace (length l' + 1 - 1)%nat with (length l') by lia.
    rewrite skipn_app, skipn_all, Nat.sub_diag. reflexivity. }
  rewrite H. reflexivity.
Qed.

Lemma sorted_keys_last (key : nat -> R) (l : list nat) (d j : nat) :
  StronglySorted Rle (map key l) -> In j l -> key j <= key (last l d).
Proof.
  induction l as [|x l IH]; intros Hs Hin; [contradiction |].
  simpl map in Hs. apply StronglySorted_inv in Hs. destruct Hs as [Hs Hall].
  destruct l as [|y l].
  - destruct Hin as [-> | []]. simpl. lra.
  - change (last (x :: y :: l) d) with (last (y :: l) d).
    destruct Hin as [-> | Hin].
    + rewrite Forall_forall in Hall. apply Hall.
      apply in_map. destruct (@exists_last _ (y :: l) ltac:(discriminate)) as (l' & z & Hz).
      rewrite Hz, last_last. apply in_or_app. right; left; reflexivity.
    + apply IH; assumption.
Qed.

Section PeakIndex.

Variable argsort : list R -> list nat.
Hypothesis argsort_ok : argsort_contract argsort.

(** The index that [np.argsort(spectrum)[-1:][0]] yields holds a maximum of
    the spectrum. *)
Lemma peak_index_spec (spectrum : list R) :
  spectrum <> [] ->
  exists p, peak_index argsort spectrum = Ok p /\
    (p < length spectrum)%nat /\
    forall j, (j < length spectrum)%nat -> nth j spectrum 0 <= nth p spectrum 0.
Proof.
  intros Hne. destruct (argsort_ok spectrum) as [Hperm Hsorted].
  assert (Hlen : length (argsort spectrum) = length spectrum).
  { rewrite (Permutation_length Hperm). apply length_seq. }
  assert (Hne' : argsort spectrum <> []).
  { intros E. rewrite E in Hlen. destruct spectrum; [congruence | discriminate]. }
  exists (last (argsort spectrum) O). split; [| split].
  - unfold peak_index. apply last_slice_head_last. assumption.
  - destruct (@exists_last _ _ Hne') as (l' & z & Hz).
    assert (Hin : In z (argsort spectrum))
      by (rewrite Hz; apply in_or_app; right; left; reflexivity).
    rewrite Hz, last_last.
    apply (Permutation_in _ Hperm) in Hin. apply in_seq in Hin. lia.
  - intros j Hj.
    apply (sorted_keys_last (fun i => nth i spectrum 0)); [assumption |].
    apply (Permutation_in _ (Permutation_sym Hperm)). apply in_seq. lia.
Qed.

(** A bin strictly above all others is the peak. *)
Lemma peak_index_unique (spectrum : list R) (k : nat) :
  (k < length spectrum)%nat ->
  (forall j, (j < length spectrum)%nat -> j <> k ->
     nth j spectrum 0 < nth k spectrum 0) ->
  peak_index argsort spectrum = Ok k.
Proof.
  intros Hk Hstrict.
  destruct (peak_index_spec spectrum) as (p & Hp & Hlt & Hmax).
  { destruct spectrum; [simpl in Hk; lia | discriminate]. }
  rewrite Hp. f_equal.
  destruct (Nat.eq_dec p k) as [E | E]; [assumption |].
  specialize (Hstrict p Hlt E). specialize (Hmax k Hk). lra.
Qed.

(** C1 (amended): for every non-empty spectrum, sample frequency [fs],
    non-zero sample count [N] and receive centre frequency,
    [calculate_fundamental] returns
    [peak_index*(fs/N) + receive_frequency - fs/2], where [peak_index], the
    last index of [np.argsort(spectrum)], is an index at which the spectrum
    takes its maximum value.  Which of several bins sharing the maximum it
    is depends on the sort; it need not be the first. *)
Theorem calculate_fundamental_spec (spectrum : list R) (sample_frequency : R)
    (number_samples : Z) (receive_frequency : R) :
  spectrum <> [] -> number_samples <> 0%Z ->
  exists peak : nat,
    calculate_fundamental argsort spectrum sample_frequency number_samples
      receive_frequency
    = Ok (INR peak * (sample_frequency / IZR number_samples)
          + receive_frequency - sample_frequency / 2) /\
    (peak < length spectrum)%nat /\
    forall j, (j < length spectrum)%nat -> nth j spectrum 0 <= nth peak spectrum 0.
Proof.
  intros Hne HN.
  destruct (peak_index_spec spectrum Hne) as (p & Hp & Hlt & Hmax).
  exists p. split; [| split; assumption].
  unfold calculate_fundamental.
  rewrite (proj2 (Z.eqb_neq _ _) HN), Hp. reflexivity.
Qed.

End PeakIndex.

(** *** The insertion sort meets the contract of [np.argsort] *)

Lemma insert_index_perm (key : nat -> R) (i : nat) (l : list nat) :
  Permutation (Np.insert_index key i l) (i :: l).
Proof.
  induction l as [|j l IH]; simpl; [apply Permutation_refl |].
  destruct (Np.ltb (key i) (key j)); [apply Permutation_refl |].
  eapply perm_trans; [apply perm_skip, IH | apply perm_swap].
Qed.

Lemma insert_index_sorted (key : nat -> R) (i : nat) (l : list nat) :
  Sorted Rle (map key l) -> Sorted Rle (map key (Np.insert_index key i l)).
Proof.
  induction l as [|j l IH]; intros Hs; simpl.
  - repeat constructor.
  - unfold Np.ltb. destruct (Rlt_dec (key i) (key j)) as [Hlt | Hge].
    + simpl. constructor; [assumption | constructor; lra].
    + simpl in Hs. apply Sorted_inv in Hs. destruct Hs as [Hs Hhd].
      simpl. constructor; [apply IH; assumption |].
      destruct l as [|j' l]; simpl.
      * constructor; lra.
      * destruct (Np.ltb (key i) (key j')); simpl; constructor;
          [lra | inversion Hhd; assumption].
Qed.

Lemma argsort_insertion_fold (key : nat -> R) (idxs acc : list nat) :
  Sorted Rle (map key acc) ->
  Permutation (fold_left (fun sorted i => Np.insert_index key i sorted) idxs acc)
    (idxs ++ acc) /\
  Sorted Rle (map key (fold_left (fun sorted i => Np.insert_index key i sorted) idxs acc)).
Proof.
  revert acc; induction idxs as [|i idxs IH]; intros acc Hs; simpl.
  - split; [apply Permutation_refl | assumption].
  - destruct (IH (Np.insert_index key i acc) (insert_index_sorted key i acc Hs))
      as [Hperm Hsorted].
    split; [| assumption].
    eapply perm_trans; [exact Hperm |].
    eapply perm_trans; [apply Permutation_app_head, insert_index_perm |].
    apply Permutation_sym, Permutation_middle.
Qed.

Lemma argsort_insertion_contract : argsort_contract Np.argsort_insertion.
Proof.
  intros a. unfold Np.argsort_insertion.
  destruct (argsort_insertion_fold (fun j => nth j a 0) (seq 0 (length a)) [])
    as [Hperm Hsorted]; [constructor |].
  rewrite app_nil_r in Hperm. split; [assumption |].
  apply Sorted_StronglySorted; [| assumption].
  intros x y z; apply Rle_trans.
Qed.

(** *** Ties *)

(** C1, as the spec states it, fails: of two bins sharing the maximum the
    estimator takes the second, not the first occurrence. *)
Lemma calculate_fundamental_tie_not_first :
  calculate_fundamental Np.argsort_insertion [1; 1] 2 2 0
    = Ok (INR 1 * (2 / 2) + 0 - 2 / 2) /\
  first_argmax [1; 1] = 0%nat /\
  calculate_fundamental Np.argsort_insertion [1; 1] 2 2 0
    <> Ok (INR (first_argmax [1; 1]) * (2 / 2) + 0 - 2 / 2).
Proof.
  assert (Hc : calculate_fundamental Np.argsort_insertion [1; 1] 2 2 0
               = Ok (INR 1 * (2 / 2) + 0 - 2 / 2)).
  { unfold calculate_fundamental, peak_index, Np.argsort_insertion. simpl.
    rewrite ltb_false by lra. reflexivity. }
  assert (Hf : first_argmax [1; 1] = 0%nat).
  { unfold first_argmax; simpl. destruct (Rlt_dec 1 1); [lra | reflexivity]. }
  split; [exact Hc | split; [exact Hf |]].
  rewrite Hc, Hf. intros E. injection E. simpl. lra.
Qed.

Lemma calculate_fundamental_spec_witness :
  exists peak : nat,
    calculate_fundamental Np.argsort_insertion [3; 9; 4] 2457600000 12288 1228800000
    = Ok (INR peak * (2457600000 / IZR 12288) + 1228800000 - 2457600000 / 2) /\
    (peak < length [3; 9; 4])%nat /\
    forall j, (j < length [3; 9; 4])%nat -> nth j [3; 9; 4] 0 <= nth peak [3; 9; 4] 0.
Proof.
  apply (calculate_fundamental_spec Np.argsort_insertion argsort_insertion_contract
           [3; 9; 4] 2457600000 12288 1228800000).
  - discriminate.
  - discriminate.
Defined.

(** ** Running programs over the collaborators *)

Section Exec.

Context {Gen Ana W : Type}.
Variable h : handler Gen Ana W.

Lemma exec_bind {A B : Type} (p : prog Gen Ana A) (f : A -> prog Gen Ana B) (w : W) :
  exec h (bind p f) w =
  match exec h p w with
  | (t, Ok a, w1) => let '(t2, o2, w2) := exec h (f a) w1 in (t ++ t2, o2, w2)
  | (t, Raised e, w1) => (t, Raised e, w1)
  end.
Proof.
  revert w; induction p as [a | e | c k IH | a k IH]; intros w; simpl.
  - destruct (exec h (f a) w) as [[t2 o2] w2]; reflexivity.
  - reflexivity.
  - destruct (on_command h c w) as [[u | e] w1]; [| reflexivity].
    rewrite IH. destruct (exec h k w1) as [[t [x | e]] w2]; [| reflexivity].
    destruct (exec h (f x) w2) as [[t2 o2] w3]; reflexivity.
  - destruct (on_get_spectrum h a w) as [[spectrum | e] w1]; [| reflexivity].
    rewrite IH. destruct (exec h (k spectrum) w1) as [[t [x | e]] w2]; [| reflexivity].
    destruct (exec h (f x) w2) as [[t2 o2] w3]; reflexivity.
Qed.

Lemma exec_for_each_cons {X S : Type} (x : X) (xs : list X)
    (body : X -> S -> prog Gen Ana S) (s : S) (w : W) :
  exec h (for_each (x :: xs) body s) w =
  match exec h (body x s) w with
  | (t, Ok s1, w1) =>
      let '(t2, o2, w2) := exec h (for_each xs body s1) w1 in (t ++ t2, o2, w2)
  | (t, Raised e, w1) => (t, Raised e, w1)
  end.
Proof. simpl for_each. apply exec_bind. Qed.

Lemma exec_lift {A : Type} (r : result A) (w : W) :
  exec h (lift r) w = ([], r, w).
Proof. destruct r; reflexivity. Qed.

(** A call that raised ends the run: it is the last call of the trace and
    its exception is the outcome. *)
Lemma exec_raise_is_final {A : Type} (p : prog Gen Ana A) (w : W)
    (ev : event Gen Ana) (e : pyexn) :
  In ev (trace_of h p w) -> raised_in ev e ->
  outcome_of h p w = Raised e /\ exists t0, trace_of h p w = t0 ++ [ev].
Proof.
  unfold trace_of, outcome_of.
  revert w; induction p as [a | e' | c k IH | a k IH]; intros w Hin Hr; simpl in *.
  - contradiction.
  - contradiction.
  - destruct (on_command h c w) as [[u | e'] w1].
    + specialize (IH w1). destruct (exec h k w1) as [[t o] w2]. simpl in *.
      destruct Hin as [<- | Hin]; [simpl in Hr; discriminate |].
      destruct (IH Hin Hr) as [Ho [t0 Ht]].
      split; [assumption | exists (EvDo c (Ok u) :: t0); rewrite Ht; reflexivity].
    + simpl in *. destruct Hin as [<- | []]. simpl in Hr.
      split; [congruence | exists []; reflexivity].
  - destruct (on_get_spectrum h a w) as [[spectrum | e'] w1].
    + specialize (IH spectrum w1).
      destruct (exec h (k spectrum) w1) as [[t o] w2]. simpl in *.
      destruct Hin as [<- | Hin]; [simpl in Hr; discriminate |].
      destruct (IH Hin Hr) as [Ho [t0 Ht]].
      split; [assumption | exists (EvGet a (Ok spectrum) :: t0); rewrite Ht; reflexivity].
    + simpl in *. destruct Hin as [<- | []]. simpl in Hr.
      split; [congruence | exists []; reflexivity].
Qed.

Lemma analyser_settings_app (t1 t2 : list (event Gen Ana)) :
  analyser_settings (t1 ++ t2) = analyser_settings t1 ++ analyser_settings t2.
Proof.
  induction t1 as [|ev t1 IH]; [reflexivity |].
  destruct ev as [[] r | a r]; simpl; rewrite IH; reflexivity.
Qed.

Lemma spectra_returned_app (t1 t2 : list (event Gen Ana)) :
  spectra_returned (t1 ++ t2) = spectra_returned t1 ++ spectra_returned t2.
Proof.
  induction t1 as [|ev t1 IH]; [reflexivity |].
  destruct ev as [c r | a [s | e]]; simpl; rewrite IH; reflexivity.
Qed.

End Exec.

(** ** Python slices with a step *)

Lemma take_every_nth {A : Type} (k : nat) (l : list A) (c j : nat) (d : A) :
  (1 <= k)%nat -> nth j (take_every k c l) d = nth (j * k + c) l d.
Proof.
  intros Hk. revert c j; induction l as [|x l IH]; intros c j.
  - simpl take_every. generalize (j * k + c)%nat; intros n.
    destruct j, n; reflexivity.
  - destruct c as [|c]; simpl take_every.
    + destruct j as [|j]; [reflexivity |].
      simpl nth at 1. rewrite IH.
      replace (S j * k + 0)%nat with (S (j * k + (k - 1))) by lia. reflexivity.
    + rewrite IH. replace (j * k + S c)%nat with (S (j * k + c)) by lia. reflexivity.
Qed.

Lemma take_every_index {A : Type} (k : nat) (l : list A) (c j : nat) :
  (1 <= k)%nat -> (j < length (take_every k c l))%nat <-> (j * k + c < length l)%nat.
Proof.
  intros Hk. revert c j; induction l as [|x l IH]; intros c j.
  - simpl. lia.
  - destruct c as [|c]; simpl take_every; simpl length.
    + destruct j as [|j]; [lia |].
      specialize (IH (k - 1)%nat j). lia.
    + specialize (IH c j). lia.
Qed.

Lemma slice_step_length {A : Type} (i k n : nat) (l : list A) :
  (i < k)%nat -> length l = (n * k)%nat -> length (slice_step i k l) = n.
Proof.
  intros Hi Hlen. unfold slice_step.
  assert (Hk : (1 <= k)%nat) by lia.
  pose proof (take_every_index k l i n Hk) as Hn.
  destruct (Nat.eq_dec (length (take_every k i l)) n) as [E | E]; [assumption |].
  destruct (Nat.lt_ge_cases (length (take_every k i l)) n) as [Hlt | Hge].
  - pose proof (take_every_index k l i (length (take_every k i l)) Hk) as Hm.
    assert ((length (take_every k i l) * k + i < length l)%nat) by nia.
    lia.
  - assert ((n < length (take_every k i l))%nat) by lia. lia.
Qed.

Lemma slice_step_nth {A : Type} (i k j : nat) (l : list A) (d : A) :
  (i < k)%nat -> nth j (slice_step i k l) d = nth (j * k + i) l d.
Proof. intros Hi. apply take_every_nth. lia. Qed.

Lemma flat_map_nth {X Y : Type} (g : X -> list Y) (k : nat) (xs : list X)
    (i j : nat) (dx : X) (dy : Y) :
  (forall x, length (g x) = k) -> (i < k)%nat -> (j < length xs)%nat ->
  nth (j * k + i) (flat_map g xs) dy = nth i (g (nth j xs dx)) dy.
Proof.
  intros Hg Hi. revert j; induction xs as [|x xs IH]; intros j Hj; simpl in Hj; [lia |].
  simpl flat_map. destruct j as [|j].
  - simpl. rewrite app_nth1 by (rewrite Hg; lia). reflexivity.
  - rewrite app_nth2 by (rewrite Hg; nia). rewrite Hg.
    replace (S j * k + i - k)%nat with (j * k + i)%nat by lia.
    simpl nth at 2. apply IH. lia.
Qed.

Lemma flat_map_length_const {X Y : Type} (g : X -> list Y) (k : nat) (xs : list X) :
  (forall x, length (g x) = k) -> length (flat_map g xs) = (length xs * k)%nat.
Proof.
  intros Hg. induction xs as [|x xs IH]; [reflexivity |].
  simpl. rewrite length_app, Hg, IH. reflexivity.
Qed.

(** ** The sweep *)

Section Sweep.

Context {Gen Ana W : Type}.
Variable h : handler Gen Ana W.
Variable argsort : list R -> list nat.
Variable generators : list Gen.
Variable analysers : list Ana.
Variable sample_frequency : R.
Variable number_samples : Z.

Lemma generator_body_quiet (amplitude f : R) (g : Gen) (s : unit) (w : W) :
  analyser_settings (trace_of h (generator_body (Ana := Ana) amplitude f g s) w) = [] /\
  spectra_returned (trace_of h (generator_body (Ana := Ana) amplitude f g s) w) = [].
Proof.
  unfold trace_of, generator_body. simpl.
  destruct (on_command h _ w) as [[u1 | e1] w1]; [| split; reflexivity].
  destruct (on_command h _ w1) as [[u2 | e2] w2]; [| split; reflexivity].
  destruct (on_command h _ w2) as [[u3 | e3] w3]; split; reflexivity.
Qed.

Lemma generators_quiet (amplitude f : R) (gs : list Gen) (s : unit) (w : W) :
  analyser_settings
    (trace_of h (for_each gs (generator_body (Ana := Ana) amplitude f) s) w) = [] /\
  spectra_returned
    (trace_of h (for_each gs (generator_body (Ana := Ana) amplitude f) s) w) = [].
Proof.
  revert s w; induction gs as [|g gs IH]; intros s w; [split; reflexivity |].
  unfold trace_of in *. rewrite exec_for_each_cons.
  pose proof (generator_body_quiet amplitude f g s w) as [Ha Hs].
  unfold trace_of in Ha, Hs.
  destruct (exec h (generator_body amplitude f g s) w) as [[t [s1 | e]] w1];
    simpl in Ha, Hs; [| split; assumption].
  specialize (IH s1 w1).
  destruct (exec h (for_each gs (generator_body amplitude f) s1) w1) as [[t2 o2] w2].
  simpl in *. rewrite analyser_settings_app, spectra_returned_app.
  destruct IH as [-> ->]. rewrite Ha, Hs. split; reflexivity.
Qed.

Lemma analyser_body_exec (f : R) (a : Ana) (acc : list R * list R) (w : W) :
  analyser_settings
    (trace_of h (analyser_body (Gen := Gen) argsort sample_frequency number_samples
                   f a acc) w)
    = [(a, receive_frequency_for sample_frequency f)] /\
  forall acc',
    outcome_of h (analyser_body (Gen := Gen) argsort sample_frequency number_samples
                    f a acc) w = Ok acc' ->
    exists spectrum m,
      spectra_returned
        (trace_of h (analyser_body (Gen := Gen) argsort sample_frequency
                       number_samples f a acc) w) = [(a, spectrum)] /\
      measured argsort sample_frequency number_samples f spectrum m /\
      acc' = (fst acc ++ [fst m], snd acc ++ [snd m]).
Proof.
  unfold trace_of, outcome_of, analyser_body, measured.
  set (rf := receive_frequency_for sample_frequency f).
  set (rfHz := rf * 1e6).
  cbn [exec].
  destruct (on_command h (SetAnaCentre a rf) w) as [[u1 | e1] w1];
    [| split; [reflexivity | intros ? H; discriminate H]].
  destruct (on_command h (SetPlotCentre a rfHz) w1) as [[u2 | e2] w2];
    [| split; [reflexivity | intros ? H; discriminate H]].
  destruct (on_command h (UpdateSpectrum a) w2) as [[u3 | e3] w3];
    [| split; [reflexivity | intros ? H; discriminate H]].
  destruct (on_get_spectrum h a w3) as [[spectrum | e4] w4];
    [| split; [reflexivity | intros ? H; discriminate H]].
  destruct (Np.max spectrum) as [maxvalue | e5];
    [| split; [reflexivity | intros ? H; discriminate H]].
  destruct (peak_index argsort spectrum) as [maxindex | e6];
    [| split; [reflexivity | intros ? H; discriminate H]].
  destruct (calculate_fundamental argsort spectrum sample_frequency number_samples rfHz)
    as [f0 | e7] eqn:Hf0;
    [| split; [reflexivity | intros ? H; discriminate H]].
  destruct (calculate_simple_snr spectrum) as [s | e8] eqn:Hs;
    [| split; [reflexivity | intros ? H; discriminate H]].
  split; [reflexivity |].
  intros acc' Hacc. cbn in Hacc. injection Hacc as <-.
  exists spectrum, (f0 * 1e-6, s). split; [reflexivity |].
  split; [| reflexivity].
  exists f0. repeat split; assumption.
Qed.

Lemma recorded_app (r1 r2 : list (R * Ana)) (s1 s2 : list (Ana * list R))
    (m1 m2 : list (R * R)) :
  recorded argsort sample_frequency number_samples r1 s1 m1 ->
  recorded argsort sample_frequency number_samples r2 s2 m2 ->
  recorded argsort sample_frequency number_samples (r1 ++ r2) (s1 ++ s2) (m1 ++ m2).
Proof.
  induction 1; intros H2; simpl; [assumption | constructor; auto].
Qed.

Lemma recorded_nth (rounds : list (R * Ana)) (spectra : list (Ana * list R))
    (ms : list (R * R)) (dr : R * Ana) (ds : Ana * list R) (dm : R * R) :
  recorded argsort sample_frequency number_samples rounds spectra ms ->
  length spectra = length rounds /\ length ms = length rounds /\
  forall i, (i < length rounds)%nat ->
    fst (nth i spectra ds) = snd (nth i rounds dr) /\
    measured argsort sample_frequency number_samples
      (fst (nth i rounds dr)) (snd (nth i spectra ds)) (nth i ms dm).
Proof.
  induction 1 as [| f a spectrum m rounds spectra ms Hm Hrec IH]; simpl.
  - repeat split; lia.
  - destruct IH as (Hl1 & Hl2 & IH). repeat split; try lia.
    + destruct i as [|i]; [reflexivity | apply IH; lia].
    + destruct i as [|i]; [assumption | apply IH; lia].
Qed.

Lemma for_each_advances {X : Type} (xs : list X)
    (body : X -> list R * list R -> prog Gen Ana (list R * list R))
    (expect : X -> list (Ana * R)) (rounds : X -> list (R * Ana)) :
  (forall x, advances h argsort sample_frequency number_samples
               (expect x) (rounds x) (body x)) ->
  advances h argsort sample_frequency number_samples
    (flat_map expect xs) (flat_map rounds xs) (for_each xs body).
Proof.
  intros Hbody. induction xs as [|x xs IH]; intros acc w.
  - unfold trace_of, outcome_of; simpl. split; [exists []; reflexivity |].
    intros acc' H; injection H as <-. split; [reflexivity |].
    exists []. split; [constructor |]. simpl. rewrite !app_nil_r.
    destruct acc; reflexivity.
  - destruct (Hbody x acc w) as [[rest1 Hpre1] Hok1].
    unfold trace_of, outcome_of in *. rewrite exec_for_each_cons.
    destruct (exec h (body x acc) w) as [[t1 [acc1 | e]] w1]; simpl in Hpre1, Hok1.
    + destruct (Hok1 acc1 eq_refl) as (Hset1 & ms1 & Hrec1 & Hacc1).
      destruct (IH acc1 w1) as [[rest2 Hpre2] Hok2].
      unfold trace_of, outcome_of in Hpre2, Hok2.
      destruct (exec h (for_each xs body acc1) w1) as [[t2 o2] w2];
        simpl in Hpre2, Hok2. simpl.
      rewrite analyser_settings_app, spectra_returned_app. split.
      * exists rest2. rewrite Hset1, Hpre2, app_assoc. reflexivity.
      * intros acc' Ho. destruct (Hok2 acc' Ho) as (Hset2 & ms2 & Hrec2 & Hacc2).
        split; [rewrite Hset1, Hset2; reflexivity |].
        exists (ms1 ++ ms2). split; [apply recorded_app; assumption |].
        rewrite Hacc2, Hacc1; simpl. rewrite !map_app, !app_assoc. reflexivity.
    + simpl. split; [| intros ? H; discriminate H].
      exists (rest1 ++ flat_map expect xs). rewrite Hpre1, app_assoc. reflexivity.
Qed.

Lemma flat_map_singleton {X Y : Type} (g : X -> Y) (xs : list X) :
  flat_map (fun x => [g x]) xs = map g xs.
Proof. induction xs as [|x xs IH]; simpl; [| rewrite IH]; reflexivity. Qed.

Lemma analyser_body_advances (f : R) (a : Ana) :
  advances h argsort sample_frequency number_samples
    [(a, receive_frequency_for sample_frequency f)] [(f, a)]
    (analyser_body argsort sample_frequency number_samples f a).
Proof.
  intros acc w. destruct (analyser_body_exec f a acc w) as [Hset Hok].
  split; [exists []; rewrite Hset; reflexivity |].
  intros acc' Ho. destruct (Hok acc' Ho) as (spectrum & m & Hsp & Hm & Hacc).
  split; [assumption |]. exists [m]. rewrite Hsp. split; [| assumption].
  constructor; [assumption | constructor].
Qed.

Lemma frequency_body_advances (amplitude f : R) :
  advances h argsort sample_frequency number_samples
    (map (fun a => (a, receive_frequency_for sample_frequency f)) analysers)
    (map (fun a => (f, a)) analysers)
    (frequency_body argsort generators analysers sample_frequency number_samples
       amplitude f).
Proof.
  intros acc w.
  pose proof (for_each_advances analysers
                (analyser_body argsort sample_frequency number_samples f)
                (fun a => [(a, receive_frequency_for sample_frequency f)])
                (fun a => [(f, a)]) (analyser_body_advances f)) as Hloop.
  rewrite !flat_map_singleton in Hloop.
  unfold frequency_body, trace_of, outcome_of. rewrite exec_bind.
  destruct (generators_quiet amplitude f generators tt w) as [Hq1 Hq2].
  unfold trace_of in Hq1, Hq2.
  destruct (exec h (for_each generators (generator_body amplitude f) tt) w)
    as [[tg [u | e]] wg]; simpl in Hq1, Hq2.
  - cbn [exec].
    destruct (on_command h (Sleep 1) wg) as [[u1 | e1] w1].
    + destruct (Hloop acc w1) as [Hpre Hok]. unfold trace_of, outcome_of in Hpre, Hok.
      destruct (exec h (for_each analysers
                  (analyser_body argsort sample_frequency number_samples f) acc) w1)
        as [[t2 o2] w2]; simpl in Hpre, Hok. simpl.
      rewrite analyser_settings_app, spectra_returned_app, Hq1, Hq2. simpl.
      split; assumption.
    + simpl. rewrite analyser_settings_app, Hq1. simpl.
      split; [eexists; reflexivity | intros ? H; discriminate H].
  - simpl. rewrite Hq1.
    split; [eexists; reflexivity | intros ? H; discriminate H].
Qed.

(** The sweep as a whole: the settings made on the analysers, the spectra
    they returned and the tables built of them. *)
Lemma run_spectrum_sweep_exec (frequencies : list R) (amplitude : R) (w : W) :
  (exists rest,
     flat_map (fun f => map (fun a => (a, receive_frequency_for sample_frequency f))
                          analysers) frequencies
     = analyser_settings
         (trace_of h (run_spectrum_sweep argsort generators analysers
                        sample_frequency number_samples frequencies amplitude) w)
       ++ rest) /\
  forall tables,
    outcome_of h (run_spectrum_sweep argsort generators analysers
                    sample_frequency number_samples frequencies amplitude) w
      = Ok tables ->
    analyser_settings
      (trace_of h (run_spectrum_sweep argsort generators analysers
                     sample_frequency number_samples frequencies amplitude) w)
    = flat_map (fun f => map (fun a => (a, receive_frequency_for sample_frequency f))
                           analysers) frequencies /\
    exists ms,
      recorded argsort sample_frequency number_samples
        (sweep_rounds analysers frequencies)
        (spectra_returned
           (trace_of h (run_spectrum_sweep argsort generators analysers
                          sample_frequency number_samples frequencies amplitude) w))
        ms /\
      tables = map (result_table analysers frequencies (map fst ms, map snd ms))
                 (seq 0 (length analysers)).
Proof.
  pose proof (for_each_advances frequencies
                (frequency_body argsort generators analysers sample_frequency
                   number_samples amplitude)
                (fun f => map (fun a => (a, receive_frequency_for sample_frequency f))
                            analysers)
                (fun f => map (fun a => (f, a)) analysers)
                (frequency_body_advances amplitude) ([], []) w) as [Hpre Hok].
  unfold run_spectrum_sweep, trace_of, outcome_of in *. rewrite exec_bind.
  destruct (exec h (for_each frequencies
              (frequency_body argsort generators analysers sample_frequency
                 number_samples amplitude) ([], [])) w)
    as [[t [acc | e]] w1]; simpl in Hpre, Hok; simpl.
  - rewrite app_nil_r. split; [assumption |].
    intros tables Ht. injection Ht as <-.
    destruct (Hok acc eq_refl) as (Hset & ms & Hrec & Hacc).
    split; [assumption |]. exists ms. split; [assumption |].
    rewrite Hacc. reflexivity.
  - split; [assumption | intros ? H; discriminate H].
Qed.

Lemma receive_frequency_for_rule (f : R) :
  receive_frequency_for sample_frequency f = zone_rule sample_frequency f.
Proof.
  unfold receive_frequency_for, zone_rule.
  destruct (Rlt_dec (f * 1e6) sample_frequency); reflexivity.
Qed.

Lemma zone_settings_rule (frequencies : list R) :
  flat_map (fun f => map (fun a => (a, receive_frequency_for sample_frequency f))
                       analysers) frequencies
  = flat_map (fun f => map (fun a => (a, zone_rule sample_frequency f)) analysers)
      frequencies.
Proof.
  apply flat_map_ext; intros f. apply map_ext; intros a.
  rewrite receive_frequency_for_rule. reflexivity.
Qed.

(** C5: the centre frequencies that [run_spectrum_sweep] sets on the
    analysers are, for each frequency [f] of the input list in order and for
    each analyser in order, the low zone constant 1228.8 when [f*1e6] is
    strictly below the sample frequency and the high zone constant 3686.4
    otherwise, the same for every analyser at that frequency.  A sweep that an
    exception ends has made a prefix of these settings. *)
Theorem run_spectrum_sweep_zone_selection (frequencies : list R) (amplitude : R) (w : W) :
  (forall f, (f * 1e6 < sample_frequency -> zone_rule sample_frequency f = 1228.8) /\
             (~ f * 1e6 < sample_frequency -> zone_rule sample_frequency f = 3686.4)) /\
  (exists rest,
     flat_map (fun f => map (fun a => (a, zone_rule sample_frequency f)) analysers)
       frequencies
     = analyser_settings
         (trace_of h (run_spectrum_sweep argsort generators analysers
                        sample_frequency number_samples frequencies amplitude) w)
       ++ rest) /\
  (forall tables,
     outcome_of h (run_spectrum_sweep argsort generators analysers
                     sample_frequency number_samples frequencies amplitude) w
       = Ok tables ->
     analyser_settings
       (trace_of h (run_spectrum_sweep argsort generators analysers
                      sample_frequency number_samples frequencies amplitude) w)
     = flat_map (fun f => map (fun a => (a, zone_rule sample_frequency f)) analysers)
         frequencies).
Proof.
  destruct (run_spectrum_sweep_exec frequencies amplitude w) as [Hpre Hok].
  rewrite zone_settings_rule in Hpre.
  split; [| split].
  - intros f. unfold zone_rule.
    destruct (Rlt_dec (f * 1e6) sample_frequency); split; intros; tauto.
  - exact Hpre.
  - intros tables Ht. destruct (Hok tables Ht) as [Hset _].
    rewrite Hset. apply zone_settings_rule.
Qed.

(** The tables of a sweep that ends without an exception. *)
Lemma run_spectrum_sweep_tables_of_spectra (frequencies : list R) (amplitude : R)
    (w : W) (tables : list (list (list R))) (da : Ana) :
  outcome_of h (run_spectrum_sweep argsort generators analysers
                  sample_frequency number_samples frequencies amplitude) w
    = Ok tables ->
  let k := length analysers in
  let n := length frequencies in
  let spectra :=
    spectra_returned
      (trace_of h (run_spectrum_sweep argsort generators analysers
                     sample_frequency number_samples frequencies amplitude) w) in
  length tables = k /\
  length spectra = (n * k)%nat /\
  forall i, (i < k)%nat ->
    exists fundamental snr,
      nth i tables [] = [frequencies; fundamental; snr] /\
      length fundamental = n /\ length snr = n /\
      forall j, (j < n)%nat ->
        fst (nth (j * k + i) spectra (da, [])) = nth i analysers da /\
        measured argsort sample_frequency number_samples (nth j frequencies 0)
          (snd (nth (j * k + i) spectra (da, [])))
          (nth j fundamental 0, nth j snr 0).
Proof.
  intros Ht k n spectra.
  destruct (run_spectrum_sweep_exec frequencies amplitude w) as [_ Hok].
  destruct (Hok tables Ht) as (_ & ms & Hrec & Htab). fold spectra in Hrec.
  destruct (recorded_nth _ _ _ (0, da) (da, []) (0, 0) Hrec) as (Hl1 & Hl2 & Hnth).
  assert (Hrounds : length (sweep_rounds analysers frequencies) = (n * k)%nat).
  { unfold sweep_rounds. apply flat_map_length_const. intros f. apply length_map. }
  rewrite Hrounds in Hl1, Hl2, Hnth.
  split; [rewrite Htab, length_map, length_seq; reflexivity |].
  split; [assumption |].
  intros i Hi.
  exists (slice_step i k (map fst ms)), (slice_step i k (map snd ms)).
  split; [| split; [| split]].
  - rewrite Htab. rewrite (nth_map_in _ _ i O) by (rewrite length_seq; exact Hi).
    rewrite seq_nth by exact Hi. reflexivity.
  - apply slice_step_length; [exact Hi | rewrite length_map; exact Hl2].
  - apply slice_step_length; [exact Hi | rewrite length_map; exact Hl2].
  - intros j Hj.
    assert (Hidx : (j * k + i < n * k)%nat) by nia.
    destruct (Hnth _ Hidx) as [Hfrom Hmeas].
    assert (Hround : nth (j * k + i) (sweep_rounds analysers frequencies) (0, da)
                     = (nth j frequencies 0, nth i analysers da)).
    { unfold sweep_rounds.
      rewrite (flat_map_nth _ k frequencies i j 0) by
        (first [intros f; apply length_map | exact Hi | exact Hj]).
      apply nth_map_in. exact Hi. }
    rewrite Hround in Hfrom, Hmeas. simpl in Hfrom, Hmeas.
    split; [exact Hfrom |].
    rewrite !slice_step_nth by exact Hi.
    rewrite (map_nth fst ms (0, 0) (j * k + i) : nth _ (map fst ms) 0 = _).
    rewrite (map_nth snd ms (0, 0) (j * k + i) : nth _ (map snd ms) 0 = _).
    destruct (nth (j * k + i) ms (0, 0)); exact Hmeas.
Qed.

(** A loopback: every spectrum returned measures as the commanded frequency
    and an SNR of 90 dB.  Then the fundamental row repeats the frequency row
    and the SNR row is 90 throughout. *)
Lemma run_spectrum_sweep_tables_of_loopback (frequencies : list R) (amplitude : R)
    (w : W) (tables : list (list (list R))) (da : Ana) :
  outcome_of h (run_spectrum_sweep argsort generators analysers
                  sample_frequency number_samples frequencies amplitude) w
    = Ok tables ->
  (forall i j m, (i < length analysers)%nat -> (j < length frequencies)%nat ->
     measured argsort sample_frequency number_samples (nth j frequencies 0)
       (snd (nth (j * length analysers + i)
               (spectra_returned
                  (trace_of h (run_spectrum_sweep argsort generators analysers
                                 sample_frequency number_samples frequencies
                                 amplitude) w))
               (da, []))) m ->
     m = (nth j frequencies 0, 90)) ->
  length tables = length analysers /\
  forall i, (i < length analysers)%nat ->
    nth i tables [] = [frequencies; frequencies; repeat 90 (length frequencies)].
Proof.
  intros Ht Hloop.
  destruct (run_spectrum_sweep_tables_of_spectra frequencies amplitude w tables da Ht)
    as (Hlen & _ & Htab).
  split; [exact Hlen |].
  intros i Hi.
  destruct (Htab i Hi) as (fundamental & snr & Hrow & Hlf & Hls & Hcol).
  rewrite Hrow.
  assert (Hf : fundamental = frequencies).
  { apply (nth_ext _ _ 0 0); [exact Hlf |].
    intros j Hj. rewrite Hlf in Hj.
    destruct (Hcol j Hj) as [_ Hm]. apply (Hloop i j _ Hi Hj) in Hm.
    injection Hm as Hm1 Hm2. exact Hm1. }
  assert (Hs : snr = repeat 90 (length frequencies)).
  { apply (nth_ext _ _ 0 0); [rewrite repeat_length; exact Hls |].
    intros j Hj. rewrite Hls in Hj.
    destruct (Hcol j Hj) as [_ Hm]. apply (Hloop i j _ Hi Hj) in Hm.
    injection Hm as Hm1 Hm2. rewrite nth_repeat_lt by exact Hj. exact Hm2. }
  rewrite Hf, Hs. reflexivity.
Qed.

(** With collaborators that do not raise, the sweep returns. *)
Lemma for_each_returns {X S : Type} (xs : list X) (body : X -> S -> prog Gen Ana S) :
  (forall x s w, exists t s1 w1, exec h (body x s) w = (t, Ok s1, w1)) ->
  forall s w, exists t s1 w1, exec h (for_each xs body s) w = (t, Ok s1, w1).
Proof.
  intros Hbody. induction xs as [|x xs IH]; intros s w.
  - exists [], s, w. reflexivity.
  - rewrite exec_for_each_cons.
    destruct (Hbody x s w) as (t1 & s1 & w1 & ->).
    destruct (IH s1 w1) as (t2 & s2 & w2 & ->).
    exists (t1 ++ t2), s2, w2. reflexivity.
Qed.

Lemma generator_body_returns (amplitude f : R) (g : Gen) (s : unit) (w : W) :
  reliable h ->
  exists t s1 w1,
    exec h (generator_body (Ana := Ana) amplitude f g s) w = (t, Ok s1, w1).
Proof.
  intros [Hcmd _]. unfold generator_body. cbn [exec].
  destruct (Hcmd (SetGenEnable g true) w) as [w1 ->].
  destruct (Hcmd (SetGenGain g amplitude) w1) as [w2 ->].
  destruct (Hcmd (SetGenCentre g f) w2) as [w3 ->].
  eexists _, _, _. reflexivity.
Qed.

Lemma analyser_body_returns (f : R) (a : Ana) (acc : list R * list R) (w : W) :
  reliable h -> argsort_contract argsort -> number_samples <> 0%Z ->
  exists t acc1 w1,
    exec h (analyser_body (Gen := Gen) argsort sample_frequency number_samples
              f a acc) w = (t, Ok acc1, w1).
Proof.
  intros [Hcmd Hget] Hc HN. unfold analyser_body.
  set (rf := receive_frequency_for sample_frequency f).
  set (rfHz := rf * 1e6).
  cbn [exec].
  destruct (Hcmd (SetAnaCentre a rf) w) as [w1 ->].
  destruct (Hcmd (SetPlotCentre a rfHz) w1) as [w2 ->].
  destruct (Hcmd (UpdateSpectrum a) w2) as [w3 ->].
  destruct (Hget a w3) as (spectrum & w4 & -> & Hne).
  destruct (np_max_spec spectrum Hne) as (peak & Hmax & _).
  destruct (peak_index_spec argsort Hc spectrum Hne) as (p & Hp & _).
  destruct (calculate_simple_snr_max_mean spectrum Hne) as (peak' & Hsnr & _).
  assert (Hf0 : exists f0, calculate_fundamental argsort spectrum sample_frequency
                             number_samples rfHz = Ok f0).
  { unfold calculate_fundamental.
    rewrite (proj2 (Z.eqb_neq _ _) HN), Hp. eexists; reflexivity. }
  destruct Hf0 as [f0 Hf0].
  rewrite Hmax, Hp, Hf0, Hsnr. cbn [lift bind exec].
  eexists _, _, _. reflexivity.
Qed.

Lemma run_spectrum_sweep_returns (frequencies : list R) (amplitude : R) (w : W) :
  reliable h -> argsort_contract argsort -> number_samples <> 0%Z ->
  exists tables,
    outcome_of h (run_spectrum_sweep argsort generators analysers
                    sample_frequency number_samples frequencies amplitude) w
    = Ok tables.
Proof.
  intros Hrel Hc HN. unfold outcome_of, run_spectrum_sweep. rewrite exec_bind.
  destruct (for_each_returns frequencies
              (frequency_body argsort generators analysers sample_frequency
                 number_samples amplitude)) with (s := ([] : list R, [] : list R))
                                                (w := w)
    as (t & acc & w1 & ->).
  - intros f acc w0. unfold frequency_body. rewrite exec_bind.
    destruct (for_each_returns generators (generator_body (Ana := Ana) amplitude f)
                (fun g s w => generator_body_returns amplitude f g s w Hrel) tt w0)
      as (tg & u & wg & ->).
    cbn [exec]. destruct (proj1 Hrel (Sleep 1) wg) as [w2 ->].
    destruct (for_each_returns analysers
                (analyser_body argsort sample_frequency number_samples f)
                (fun a acc w => analyser_body_returns f a acc w Hrel Hc HN) acc w2)
      as (ta & acc1 & wa & ->).
    eexists _, _, _. reflexivity.
  - cbn [exec]. eexists. reflexivity.
Qed.

(** C9: if a call of a hardware collaborator (a generator or analyser
    setting, [update_spectrum], [get_spectrum]) raises during
    [run_spectrum_sweep], the sweep raises that same exception and returns
    no table; the call that raised is the last call the sweep makes (nothing
    is retried, nothing recovered). *)
Theorem run_spectrum_sweep_failure_is_fatal (frequencies : list R) (amplitude : R)
    (w : W) (ev : event Gen Ana) (e : pyexn) :
  In ev (trace_of h (run_spectrum_sweep argsort generators analysers
                       sample_frequency number_samples frequencies amplitude) w) ->
  raised_in ev e ->
  outcome_of h (run_spectrum_sweep argsort generators analysers
                  sample_frequency number_samples frequencies amplitude) w
    = Raised e /\
  (forall tables,
     outcome_of h (run_spectrum_sweep argsort generators analysers
                     sample_frequency number_samples frequencies amplitude) w
       <> Ok tables) /\
  exists t0,
    trace_of h (run_spectrum_sweep argsort generators analysers
                  sample_frequency number_samples frequencies amplitude) w
      = t0 ++ [ev].
Proof.
  intros Hin Hr.
  destruct (exec_raise_is_final h _ w ev e Hin Hr) as [Ho Hlast].
  split; [assumption | split; [| assumption]].
  intros tables. rewrite Ho. discriminate.
Qed.

End Sweep.

(** ** The sweep against the simulated loopback *)

Lemma tone_bin_of (f : R) (bin : Z) : f * 5 = IZR bin -> tone_bin f = bin.
Proof.
  intros Hf. unfold tone_bin. symmetry. apply Int_part_spec.
  replace (f * 1e6 / (2457.6e6 / 12288)) with (IZR bin) by (rewrite <- Hf; lra).
  lra.
Qed.

Lemma loopback_peak_pos : 0 < loopback_peak.
Proof. unfold loopback_peak. lra. Qed.

Lemma loopback_spectrum_length (bin : Z) :
  (0 <= bin < 12288)%Z -> length (loopback_spectrum bin) = Z.to_nat 12288.
Proof.
  intros Hb. unfold loopback_spectrum.
  rewrite length_app. cbn [length]. rewrite !repeat_length. lia.
Qed.

Lemma loopback_spectrum_nth (bin : Z) (j : nat) :
  (0 <= bin < 12288)%Z ->
  nth j (loopback_spectrum bin) 0
  = if Nat.eq_dec j (Z.to_nat bin) then loopback_peak else 0.
Proof.
  intros Hb. unfold loopback_spectrum.
  destruct (Nat.eq_dec j (Z.to_nat bin)) as [-> | Hne].
  - rewrite app_nth2 by (rewrite repeat_length; lia).
    rewrite repeat_length, Nat.sub_diag. reflexivity.
  - destruct (Nat.lt_ge_cases j (Z.to_nat bin)) as [Hlt | Hge].
    + rewrite app_nth1 by (rewrite repeat_length; lia). apply nth_repeat.
    + rewrite app_nth2 by (rewrite repeat_length; lia). rewrite repeat_length.
      destruct (j - Z.to_nat bin)%nat as [|d] eqn:Hd; [lia |].
      simpl nth. apply nth_repeat.
Qed.

Lemma loopback_peak_index (argsort : list R -> list nat) (bin : Z) :
  argsort_contract argsort -> (0 <= bin < 12288)%Z ->
  peak_index argsort (loopback_spectrum bin) = Ok (Z.to_nat bin).
Proof.
  intros Hc Hb. apply peak_index_unique; [assumption | |].
  - rewrite loopback_spectrum_length by assumption. lia.
  - intros j _ Hj. rewrite !loopback_spectrum_nth by assumption.
    destruct (Nat.eq_dec j (Z.to_nat bin)) as [E | _]; [contradiction |].
    destruct (Nat.eq_dec (Z.to_nat bin) (Z.to_nat bin)) as [_ | E]; [| contradiction].
    apply loopback_peak_pos.
Qed.

Lemma loopback_snr (bin : Z) :
  (0 <= bin < 12288)%Z -> calculate_simple_snr (loopback_spectrum bin) = Ok 90.
Proof.
  intros Hb. unfold loopback_spectrum.
  rewrite calculate_simple_snr_flat_floor by (pose proof loopback_peak_pos; lra).
  fold (loopback_spectrum bin). rewrite loopback_spectrum_length by assumption.
  rewrite INR_IZR_INZ, Z2Nat.id by lia.
  unfold loopback_peak. f_equal. lra.
Qed.

Lemma loopback_fundamental (argsort : list R -> list nat) (f : R) (bin : Z) :
  argsort_contract argsort -> (0 <= bin < 12288)%Z ->
  f * 1e6 < 2457.6e6 -> f * 5 = IZR bin ->
  exists f0,
    calculate_fundamental argsort (loopback_spectrum bin) 2457.6e6 12288
      (receive_frequency_for 2457.6e6 f * 1e6) = Ok f0 /\
    f0 * 1e-6 = f.
Proof.
  intros Hc Hb Hlow Hf.
  unfold calculate_fundamental. rewrite loopback_peak_index by assumption.
  change (12288 =? 0)%Z with false. cbn [rbind].
  eexists; split; [reflexivity |].
  rewrite INR_IZR_INZ, Z2Nat.id by lia. rewrite <- Hf.
  unfold receive_frequency_for.
  destruct (Rlt_dec (f * 1e6) 2457.6e6) as [_ | Hn]; [| contradiction].
  unfold frequency_zones. cbn [nth]. lra.
Qed.

Lemma loopback_analyser_body (argsort : list R -> list nat) (f : R) (bin : Z)
    (a : nat) (acc : list R * list R) :
  argsort_contract argsort -> (0 <= bin < 12288)%Z ->
  f * 1e6 < 2457.6e6 -> f * 5 = IZR bin ->
  exists t,
    exec loopback (analyser_body argsort 2457.6e6 12288 f a acc) f
    = (t, Ok (fst acc ++ [f], snd acc ++ [90]), f).
Proof.
  intros Hc Hb Hlow Hf.
  destruct (loopback_fundamental argsort f bin Hc Hb Hlow Hf) as (f0 & Hf0 & Hf0').
  destruct (np_max_spec (loopback_spectrum bin)) as (peak & Hmax & _).
  { unfold loopback_spectrum. destruct (Z.to_nat bin); discriminate. }
  unfold analyser_body.
  set (rf := receive_frequency_for 2457.6e6 f) in *.
  set (rfHz := rf * 1e6) in *.
  cbn [exec loopback on_command on_get_spectrum].
  rewrite (tone_bin_of f bin Hf).
  rewrite Hmax, (loopback_peak_index argsort bin Hc Hb), Hf0, (loopback_snr bin Hb).
  cbn [lift bind exec]. rewrite Hf0'.
  eexists. reflexivity.
Qed.

Lemma loopback_frequency_body (argsort : list R -> list nat) (amplitude f : R)
    (bin : Z) (acc : list R * list R) (w : R) :
  argsort_contract argsort -> (0 <= bin < 12288)%Z ->
  f * 1e6 < 2457.6e6 -> f * 5 = IZR bin ->
  exists t,
    exec loopback
      (frequency_body argsort [0; 1]%nat [2; 3]%nat 2457.6e6 12288 amplitude f acc) w
    = (t, Ok (fst acc ++ [f; f], snd acc ++ [90; 90]), f).
Proof.
  intros Hc Hb Hlow Hf.
  destruct (loopback_analyser_body argsort f bin 2%nat acc Hc Hb Hlow Hf) as [t2 H2].
  destruct (loopback_analyser_body argsort f bin 3%nat
              (fst acc ++ [f], snd acc ++ [90]) Hc Hb Hlow Hf) as [t3 H3].
  unfold frequency_body. rewrite exec_bind.
  cbn [for_each bind generator_body exec loopback on_command].
  rewrite !exec_bind, H2. cbn [exec]. rewrite !exec_bind, H3. cbn [exec fst snd].
  rewrite <- !app_assoc. eexists. reflexivity.
Qed.

(** The sweep of [200, 600, 1000] MHz against the loopback. *)
Lemma loopback_sweep (argsort : list R -> list nat) :
  argsort_contract argsort ->
  outcome_of loopback
    (run_spectrum_sweep argsort [0; 1]%nat [2; 3]%nat 2457.6e6 12288
       [200; 600; 1000] 0.5) 0
  = Ok [ [[200; 600; 1000]; [200; 600; 1000]; [90; 90; 90]];
         [[200; 600; 1000]; [200; 600; 1000]; [90; 90; 90]] ].
Proof.
  intros Hc. unfold outcome_of, run_spectrum_sweep.
  destruct (loopback_frequency_body argsort 0.5 200 1000 ([], []) 0 Hc)
    as [t1 H1]; [lia | lra | lra |].
  destruct (loopback_frequency_body argsort 0.5 600 3000
              (fst ([] : list R, [] : list R) ++ [200; 200],
               snd ([] : list R, [] : list R) ++ [90; 90]) 200 Hc)
    as [t2 H2]; [lia | lra | lra |].
  destruct (loopback_frequency_body argsort 0.5 1000 5000
              (fst (fst ([] : list R, [] : list R) ++ [200; 200],
                    snd ([] : list R, [] : list R) ++ [90; 90]) ++ [600; 600],
               snd (fst ([] : list R, [] : list R) ++ [200; 200],
                    snd ([] : list R, [] : list R) ++ [90; 90]) ++ [90; 90]) 600 Hc)
    as [t3 H3]; [lia | lra | lra |].
  rewrite exec_bind, exec_for_each_cons, H1. cbv beta iota.
  rewrite exec_for_each_cons, H2. cbv beta iota.
  rewrite exec_for_each_cons, H3. cbv beta iota.
  reflexivity.
Qed.

(** C6: for every frequency list and set of analysers, [run_spectrum_sweep]
    returns (when no collaborator raises and the spectra are not empty) one
    table per analyser, each of three rows (the transmit frequencies, the
    measured fundamentals, the measured SNRs) whose column [j] belongs to the
    [j]-th frequency of the input list: it holds what was measured on the
    spectrum this analyser returned while the generators were at that
    frequency.  Against a loopback whose spectra measure as the commanded
    frequency and an SNR of 90 dB, every table has the frequency row twice and
    a row of 90s; sweeping 200, 600, 1000 MHz against the simulated loopback
    gives, for each channel, the rows [200,600,1000], [200,600,1000] and
    [90,90,90]. *)
Theorem run_spectrum_sweep_tables :
  (forall (Gen Ana W : Type) (h : handler Gen Ana W) (argsort : list R -> list nat)
          (generators : list Gen) (analysers : list Ana) (sample_frequency : R)
          (number_samples : Z) (frequencies : list R) (amplitude : R) (w : W),
     reliable h -> argsort_contract argsort -> number_samples <> 0%Z ->
     exists tables,
       outcome_of h (run_spectrum_sweep argsort generators analysers
                       sample_frequency number_samples frequencies amplitude) w
       = Ok tables) /\
  (forall (Gen Ana W : Type) (h : handler Gen Ana W) (argsort : list R -> list nat)
          (generators : list Gen) (analysers : list Ana) (sample_frequency : R)
          (number_samples : Z) (frequencies : list R) (amplitude : R) (w : W)
          (tables : list (list (list R))) (da : Ana),
     outcome_of h (run_spectrum_sweep argsort generators analysers
                     sample_frequency number_samples frequencies amplitude) w
       = Ok tables ->
     let k := length analysers in
     let n := length frequencies in
     let spectra :=
       spectra_returned
         (trace_of h (run_spectrum_sweep argsort generators analysers
                        sample_frequency number_samples frequencies amplitude) w) in
     length tables = k /\
     length spectra = (n * k)%nat /\
     forall i, (i < k)%nat ->
       exists fundamental snr,
         nth i tables [] = [frequencies; fundamental; snr] /\
         length fundamental = n /\ length snr = n /\
         forall j, (j < n)%nat ->
           fst (nth (j * k + i) spectra (da, [])) = nth i analysers da /\
           measured argsort sample_frequency number_samples (nth j frequencies 0)
             (snd (nth (j * k + i) spectra (da, [])))
             (nth j fundamental 0, nth j snr 0)) /\
  (forall (Gen Ana W : Type) (h : handler Gen Ana W) (argsort : list R -> list nat)
          (generators : list Gen) (analysers : list Ana) (sample_frequency : R)
          (number_samples : Z) (frequencies : list R) (amplitude : R) (w : W)
          (tables : list (list (list R))) (da : Ana),
     outcome_of h (run_spectrum_sweep argsort generators analysers
                     sample_frequency number_samples frequencies amplitude) w
       = Ok tables ->
     (forall i j m, (i < length analysers)%nat -> (j < length frequencies)%nat ->
        measured argsort sample_frequency number_samples (nth j frequencies 0)
          (snd (nth (j * length analysers + i)
                  (spectra_returned
                     (trace_of h (run_spectrum_sweep argsort generators analysers
                                    sample_frequency number_samples frequencies
                                    amplitude) w))
                  (da, []))) m ->
        m = (nth j frequencies 0, 90)) ->
     length tables = length analysers /\
     forall i, (i < length analysers)%nat ->
       nth i tables [] = [frequencies; frequencies; repeat 90 (length frequencies)]) /\
  (forall argsort : list R -> list nat, argsort_contract argsort ->
     outcome_of loopback
       (run_spectrum_sweep argsort [0; 1]%nat [2; 3]%nat 2457.6e6 12288
          [200; 600; 1000] 0.5) 0
     = Ok [ [[200; 600; 1000]; [200; 600; 1000]; [90; 90; 90]];
            [[200; 600; 1000]; [200; 600; 1000]; [90; 90; 90]] ]).
Proof.
  split; [| split; [| split]].
  - intros Gen Ana W h argsort generators analysers sample_frequency number_samples
      frequencies amplitude w Hrel Hc HN.
    apply run_spectrum_sweep_returns; assumption.
  - intros Gen Ana W h argsort generators analysers sample_frequency number_samples
      frequencies amplitude w tables da Ht.
    apply run_spectrum_sweep_tables_of_spectra. exact Ht.
  - intros Gen Ana W h argsort generators analysers sample_frequency number_samples
      frequencies amplitude w tables da Ht Hloop.
    apply (run_spectrum_sweep_tables_of_loopback h argsort generators analysers
             sample_frequency number_samples frequencies amplitude w tables da);
      assumption.
  - exact loopback_sweep.
Qed.

Lemma loopback_reliable : reliable loopback.
Proof.
  split.
  - intros c w. destruct c; eexists; reflexivity.
  - intros a w. eexists _, _. split; [reflexivity |].
    unfold loopback_spectrum. destruct (Z.to_nat (tone_bin w)); discriminate.
Qed.

Lemma run_spectrum_sweep_tables_witness :
  (exists tables,
     outcome_of loopback
       (run_spectrum_sweep Np.argsort_insertion [0; 1]%nat [2; 3]%nat 2457.6e6 12288
          [200; 3000] 0.5) 0 = Ok tables) /\
  outcome_of loopback
    (run_spectrum_sweep Np.argsort_insertion [0; 1]%nat [2; 3]%nat 2457.6e6 12288
       [200; 600; 1000] 0.5) 0
  = Ok [ [[200; 600; 1000]; [200; 600; 1000]; [90; 90; 90]];
         [[200; 600; 1000]; [200; 600; 1000]; [90; 90; 90]] ] /\
  length
    (spectra_returned
       (trace_of loopback
          (run_spectrum_sweep Np.argsort_insertion [0; 1]%nat [2; 3]%nat 2457.6e6
             12288 [200; 600; 1000] 0.5) 0)) = (3 * 2)%nat.
Proof.
  pose proof (proj2 (proj2 (proj2 run_spectrum_sweep_tables)) Np.argsort_insertion
                argsort_insertion_contract) as Hrun.
  split; [| split; [exact Hrun |]].
  - apply (proj1 run_spectrum_sweep_tables nat nat R loopback Np.argsort_insertion
             [0; 1]%nat [2; 3]%nat 2457.6e6 12288%Z [200; 3000] 0.5 0
             loopback_reliable argsort_insertion_contract).
    discriminate.
  - exact (proj1 (proj2 (proj1 (proj2 run_spectrum_sweep_tables) nat nat R loopback
                           Np.argsort_insertion [0; 1]%nat [2; 3]%nat 2457.6e6
                           12288%Z [200; 600; 1000] 0.5 0 _ 0%nat Hrun))).
Defined.

Lemma run_spectrum_sweep_zone_selection_witness :
  analyser_settings
    (trace_of loopback
       (run_spectrum_sweep Np.argsort_insertion [0; 1]%nat [2; 3]%nat 2457.6e6 12288
          [200; 600; 1000] 0.5) 0)
  = flat_map (fun f => map (fun a => (a, zone_rule 2457.6e6 f)) [2; 3]%nat)
      [200; 600; 1000].
Proof.
  apply (proj2 (proj2 (run_spectrum_sweep_zone_selection loopback
                         Np.argsort_insertion [0; 1]%nat [2; 3]%nat 2457.6e6 12288
                         [200; 600; 1000] 0.5 0)) _
           (loopback_sweep Np.argsort_insertion argsort_insertion_contract)).
Defined.

Lemma run_spectrum_sweep_failure_is_fatal_witness :
  outcome_of faulty
    (run_spectrum_sweep Np.argsort_insertion [0]%nat [2]%nat 2457.6e6 12288
       [200; 600] 0.5) tt
  = Raised (HardwareError 7) /\
  (forall tables,
     outcome_of faulty
       (run_spectrum_sweep Np.argsort_insertion [0]%nat [2]%nat 2457.6e6 12288
          [200; 600] 0.5) tt
     <> Ok tables) /\
  exists t0,
    trace_of faulty
      (run_spectrum_sweep Np.argsort_insertion [0]%nat [2]%nat 2457.6e6 12288
         [200; 600] 0.5) tt
    = t0 ++ [EvDo (UpdateSpectrum 2%nat) (Raised (HardwareError 7))].
Proof.
  apply (run_spectrum_sweep_failure_is_fatal faulty Np.argsort_insertion
           [0]%nat [2]%nat 2457.6e6 12288 [200; 600] 0.5 tt
           (EvDo (UpdateSpectrum 2%nat) (Raised (HardwareError 7)))
           (HardwareError 7)).
  - unfold trace_of, run_spectrum_sweep, frequency_body.
    cbn [for_each bind generator_body analyser_body exec faulty on_command
         on_get_spectrum fst In].
    do 6 right. left. reflexivity.
  - reflexivity.
Defined.

(** ** The spectral transform *)

Lemma half_le (n : nat) : (n / 2 <= n)%nat.
Proof. apply Nat.Div0.div_le_upper_bound. lia. Qed.

Lemma fftshift_nth {A : Type} (a : list A) (i : nat) (d : A) :
  (i < length a)%nat ->
  nth i (Np.fftshift a) d
  = if Nat.ltb i (length a / 2)
    then nth (i + (length a - length a / 2)) a d
    else nth (i - length a / 2) a d.
Proof.
  intros Hi. unfold Np.fftshift.
  pose proof (half_le (length a)) as Hhalf.
  assert (Hs : length (skipn (length a - length a / 2) a) = (length a / 2)%nat)
    by (rewrite length_skipn; lia).
  destruct (Nat.ltb_spec i (length a / 2)) as [Hlt | Hge].
  - rewrite app_nth1 by lia. rewrite nth_skipn. f_equal. lia.
  - rewrite app_nth2 by lia. rewrite Hs, nth_firstn.
    destruct (Nat.ltb_spec (i - length a / 2) (length a - length a / 2)); [reflexivity | lia].
Qed.

Lemma csum_from_ext (a : list C) (start : nat) (term1 term2 : nat -> C -> C) :
  (forall m x, term1 m x = term2 m x) ->
  Np.csum_from start a term1 = Np.csum_from start a term2.
Proof.
  intros Hext. revert start; induction a as [|x a IH]; intros start; simpl;
    [reflexivity | rewrite Hext, IH; reflexivity].
Qed.

Lemma cis_period (t : R) (m : nat) : cis (t + 2 * INR m * PI) = cis t.
Proof. unfold cis. rewrite cos_period, sin_period. reflexivity. Qed.

(** A bin of the DFT is the spectrum at the frequency [k*fs/N], and at every
    frequency that differs from it by a multiple of [fs]. *)
Lemma dft_bin_spectrum_at (y : list C) (fs : R) (k : nat) (wraps : bool) :
  y <> [] -> fs <> 0 ->
  Np.dft_bin y k
  = spectrum_at y fs
      ((INR k - (if wraps then INR (length y) else 0)) * (fs / INR (length y))).
Proof.
  intros Hy Hfs. unfold Np.dft_bin, spectrum_at.
  assert (HN : INR (length y) <> 0).
  { apply not_0_INR. destruct y; [congruence | discriminate]. }
  apply csum_from_ext. intros m x. f_equal.
  destruct wraps.
  - rewrite <- (cis_period _ m). f_equal. field. split; assumption.
  - f_equal. field. split; assumption.
Qed.

Lemma half_INR_even (n : nat) : Nat.even n = true -> INR (n / 2) = INR n / 2.
Proof.
  intros H. apply Nat.even_spec in H. destruct H as [m ->].
  rewrite (Nat.mul_comm 2 m), Nat.div_mul by lia.
  rewrite mult_INR. simpl INR. lra.
Qed.

Lemma spectral_transform_bins (y : list C) (fs : R) :
  y <> [] -> fs <> 0 ->
  exists Y,
    spectral_transform y = Ok Y /\
    Y = Np.fftshift (map (Np.dft_bin y) (seq 0 (length y))) /\
    length Y = length y /\
    forall i, (i < length y)%nat ->
      nth i Y C0
      = spectrum_at y fs ((INR i - INR (length y / 2)) * (fs / INR (length y))).
Proof.
  intros Hy Hfs.
  exists (Np.fftshift (map (Np.dft_bin y) (seq 0 (length y)))).
  assert (Hlen : length (map (Np.dft_bin y) (seq 0 (length y))) = length y)
    by (rewrite length_map, length_seq; reflexivity).
  split; [| split; [reflexivity | split]].
  - unfold spectral_transform, Np.fft. destruct y; [congruence | reflexivity].
  - rewrite fftshift_length. exact Hlen.
  - intros i Hi. rewrite fftshift_nth by (rewrite Hlen; exact Hi). rewrite Hlen.
    pose proof (half_le (length y)) as Hhalf.
    destruct (Nat.ltb_spec i (length y / 2)) as [Hlt | Hge].
    + rewrite (nth_map_in _ _ _ O) by (rewrite length_seq; lia).
      rewrite seq_nth by lia. cbn [Nat.add].
      rewrite (dft_bin_spectrum_at y fs _ true Hy Hfs). f_equal.
      rewrite plus_INR, minus_INR by lia. ring.
    + rewrite (nth_map_in _ _ _ O) by (rewrite length_seq; lia).
      rewrite seq_nth by lia. cbn [Nat.add].
      rewrite (dft_bin_spectrum_at y fs _ false Hy Hfs). f_equal.
      rewrite minus_INR by lia. ring.
Qed.

Lemma bin_frequency_even (fs : R) (N i : nat) :
  Nat.even N = true -> N <> O ->
  (INR i - INR (N / 2)) * (fs / INR N) = bin_frequency fs N i.
Proof.
  intros Heven HN. unfold bin_frequency. rewrite half_INR_even by assumption.
  field. apply not_0_INR. assumption.
Qed.

Lemma bin_frequency_increasing (fs : R) (N i j : nat) :
  0 < fs -> N <> O -> (i < j)%nat -> bin_frequency fs N i < bin_frequency fs N j.
Proof.
  intros Hfs HN Hij. unfold bin_frequency.
  assert (0 < INR N) by (apply lt_0_INR; lia).
  assert (0 < fs / INR N) by (apply Rdiv_lt_0_compat; assumption).
  apply lt_INR in Hij. nra.
Qed.

(** C7 (amended): for every windowed vector [y] of non-zero even length N,
    the spectral transform is the unscaled N-point DFT of [y] followed by the
    centering reorder; bin [i] of the result is the spectrum of [y] at the
    frequency [-fs/2 + i*(fs/N)], so that index 0 holds the most negative
    frequency ([-fs/2]) and index N-1 the most positive. *)
Theorem spectral_transform_spec (y : list C) (fs : R) :
  y <> [] -> Nat.even (length y) = true -> 0 < fs ->
  exists Y,
    spectral_transform y = Ok Y /\
    Y = Np.fftshift (map (Np.dft_bin y) (seq 0 (length y))) /\
    length Y = length y /\
    (forall i, (i < length y)%nat ->
       nth i Y C0 = spectrum_at y fs (bin_frequency fs (length y) i)) /\
    bin_frequency fs (length y) 0 = - fs / 2 /\
    (forall i j, (i < j)%nat ->
       bin_frequency fs (length y) i < bin_frequency fs (length y) j).
Proof.
  intros Hy Heven Hfs.
  assert (HN : length y <> O) by (destruct y; [congruence | discriminate]).
  destruct (spectral_transform_bins y fs Hy) as (Y & Hst & HY & Hlen & Hbins); [lra |].
  exists Y. repeat split; try assumption.
  - intros i Hi. rewrite (Hbins i Hi), bin_frequency_even by assumption. reflexivity.
  - unfold bin_frequency. simpl INR. lra.
  - intros i j Hij. apply bin_frequency_increasing; assumption.
Qed.

(** *** An odd length *)

Lemma single_tone_re (a b c : R) :
  fst (Cplus (Cmult C0 (cis a))
         (Cplus (Cmult (RtoC 1) (cis b)) (Cplus (Cmult C0 (cis c)) C0)))
  = cos b.
Proof. unfold Cplus, Cmult, C0, RtoC, cis. simpl. ring. Qed.

(** C7, as the spec states it, fails on an odd length: of the three bins of
    the transform of [0, 1, 0] the middle one is the DFT bin 0 (frequency 0),
    not the spectrum at [-fs/2 + 1*(fs/3)]. *)
Lemma spectral_transform_odd_length_off_grid :
  spectral_transform [C0; RtoC 1; C0]
    = Ok [Np.dft_bin [C0; RtoC 1; C0] 2;
          Np.dft_bin [C0; RtoC 1; C0] 0;
          Np.dft_bin [C0; RtoC 1; C0] 1] /\
  Np.dft_bin [C0; RtoC 1; C0] 0
    <> spectrum_at [C0; RtoC 1; C0] 6 (bin_frequency 6 3 1).
Proof.
  split; [reflexivity |].
  intros E. apply (f_equal fst) in E.
  unfold Np.dft_bin, spectrum_at, bin_frequency in E.
  cbn [Np.csum_from] in E. rewrite !single_tone_re in E.
  cbn [length INR] in E.
  replace (- (2 * PI * 1 * 0 / (1 + 1 + 1))) with 0 in E by lra.
  replace (- (2 * PI * ((- (6) / 2 + 1 * (6 / (1 + 1 + 1))) / 6) * 1))
    with (PI / 3) in E by lra.
  rewrite cos_0, cos_PI3 in E. lra.
Qed.

Lemma spectral_transform_spec_witness :
  exists Y,
    spectral_transform [RtoC 1; RtoC 2; RtoC 3; RtoC 4] = Ok Y /\
    Y = Np.fftshift (map (Np.dft_bin [RtoC 1; RtoC 2; RtoC 3; RtoC 4]) (seq 0 4)) /\
    length Y = 4%nat /\
    (forall i, (i < 4)%nat ->
       nth i Y C0
       = spectrum_at [RtoC 1; RtoC 2; RtoC 3; RtoC 4] 2457.6e6
           (bin_frequency 2457.6e6 4 i)) /\
    bin_frequency 2457.6e6 4 0 = - (2457.6e6) / 2 /\
    (forall i j, (i < j)%nat ->
       bin_frequency 2457.6e6 4 i < bin_frequency 2457.6e6 4 j).
Proof.
  apply (spectral_transform_spec [RtoC 1; RtoC 2; RtoC 3; RtoC 4] 2457.6e6).
  - discriminate.
  - reflexivity.
  - lra.
Defined.

(** * Further properties of the notebooks' code *)

(** ** The centering reorder and the transform *)

(** X1: the centering reorder loses and repeats no bin: its result is a
    permutation of its argument, of the same length. *)
Theorem fftshift_permutes {A : Type} (a : list A) :
  Permutation (Np.fftshift a) a /\ length (Np.fftshift a) = length a.
Proof.
  split; [| apply fftshift_length].
  unfold Np.fftshift.
  eapply perm_trans; [apply Permutation_app_comm |].
  rewrite firstn_skipn. apply Permutation_refl.
Qed.

Lemma odd_half (m : nat) : ((2 * m + 1) / 2 = m)%nat.
Proof. symmetry. apply (Nat.div_unique _ 2 m 1); lia. Qed.

(** A rotation by one place gives the list back only when all its elements
    are equal. *)
Lemma rotate_fixed {A : Type} (x : A) (t : list A) :
  t ++ [x] = x :: t <-> forall y, In y t -> y = x.
Proof.
  induction t as [|z t IH]; simpl.
  - split; [intros _ y [] | reflexivity].
  - split.
    + intros E. injection E as Hz E. subst z.
      pose proof (proj1 IH E) as Hall.
      intros y [<- | Hy]; [reflexivity | apply Hall; exact Hy].
    + intros H. rewrite (H z (or_introl eq_refl)). f_equal.
      apply IH. intros y Hy. apply H. right; exact Hy.
Qed.

(** X2: on a vector of odd length the reorder applied twice rotates the
    vector by one place, the first element going last.  It gives the vector
    back only when that rotation does: when all the elements are equal (as
    in a vector of length 1). *)
Theorem fftshift_twice_odd_length {A : Type} (x : A) (t : list A) :
  Nat.odd (length (x :: t)) = true ->
  Np.fftshift (Np.fftshift (x :: t)) = t ++ [x] /\
  (Np.fftshift (Np.fftshift (x :: t)) = x :: t <-> forall y, In y t -> y = x).
Proof.
  intros Hodd.
  enough (Hrot : Np.fftshift (Np.fftshift (x :: t)) = t ++ [x])
    by (split; [exact Hrot | rewrite Hrot; apply rotate_fixed]).
  apply Nat.odd_spec in Hodd. destruct Hodd as [m Hm].
  assert (Ht : length t = (2 * m)%nat) by (simpl in Hm; lia).
  assert (Hc : (length (x :: t) - length (x :: t) / 2 = S m)%nat)
    by (rewrite Hm, odd_half; lia).
  unfold Np.fftshift at 1. rewrite fftshift_length, Hc.
  unfold Np.fftshift. rewrite Hc.
  change (skipn (S m) (x :: t)) with (skipn m t).
  change (firstn (S m) (x :: t)) with (x :: firstn m t).
  assert (Hs : length (skipn m t) = m) by (rewrite length_skipn; lia).
  replace (S m) with (length (skipn m t) + 1)%nat at 1 by lia.
  rewrite skipn_app.
  replace (length (skipn m t) + 1 - length (skipn m t))%nat with 1%nat by lia.
  rewrite (skipn_all2 (n := length (skipn m t) + 1) (skipn m t)) by lia.
  cbn [skipn app].
  replace (S m) with (length (skipn m t) + 1)%nat by lia.
  rewrite firstn_app.
  replace (length (skipn m t) + 1 - length (skipn m t))%nat with 1%nat by lia.
  rewrite (firstn_all2 (n := length (skipn m t) + 1) (skipn m t)) by lia.
  cbn [firstn].
  rewrite app_assoc, firstn_skipn. reflexivity.
Qed.

Lemma fftshift_twice_odd_length_witness :
  Np.fftshift (Np.fftshift [1; 2; 3; 4; 5]%nat) = [2; 3; 4; 5]%nat ++ [1%nat] /\
  (Np.fftshift (Np.fftshift [1; 2; 3; 4; 5]%nat) = [1; 2; 3; 4; 5]%nat <->
   forall y, In y [2; 3; 4; 5]%nat -> y = 1%nat).
Proof. apply (fftshift_twice_odd_length 1%nat [2; 3; 4; 5]%nat). reflexivity. Defined.

(** X3: the spectral transform raises [ValueError] on an empty vector; on
    every other vector, of any parity of length N, it returns N bins, and bin
    [i] is the unscaled spectrum at the frequency [(i - N//2)*(fs/N)]. *)
Theorem spectral_transform_any_length (y : list C) (fs : R) :
  fs <> 0 ->
  spectral_transform [] = Raised ValueError /\
  (y <> [] ->
   exists Y,
     spectral_transform y = Ok Y /\ length Y = length y /\
     forall i, (i < length y)%nat ->
       nth i Y C0
       = spectrum_at y fs ((INR i - INR (length y / 2)) * (fs / INR (length y)))).
Proof.
  intros Hfs. split; [reflexivity |].
  intros Hy.
  destruct (spectral_transform_bins y fs Hy Hfs) as (Y & Hst & _ & Hlen & Hbins).
  exists Y. auto.
Qed.

Lemma spectral_transform_any_length_witness :
  spectral_transform [] = Raised ValueError /\
  exists Y,
    spectral_transform [RtoC 1; RtoC 2; RtoC 3] = Ok Y /\ length Y = 3%nat /\
    forall i, (i < 3)%nat ->
      nth i Y C0
      = spectrum_at [RtoC 1; RtoC 2; RtoC 3] 2458e6
          ((INR i - INR (3 / 2)) * (2458e6 / INR 3)).
Proof.
  destruct (spectral_transform_any_length [RtoC 1; RtoC 2; RtoC 3] 2458e6) as [He Hb];
    [lra |].
  split; [exact He | apply Hb; discriminate].
Defined.

Lemma Cmult_1_r (z : C) : Cmult z (cis 0) = z.
Proof.
  unfold Cmult, cis. rewrite cos_0, sin_0. destruct z as [a b]; simpl.
  f_equal; ring.
Qed.

(** X4: the zero frequency sits at index [N//2] of the transform: that bin
    is the plain sum of the samples. *)
Theorem spectral_transform_dc_bin (y : list C) :
  y <> [] ->
  exists Y,
    spectral_transform y = Ok Y /\
    nth (length y / 2) Y C0 = Np.csum_from 0 y (fun _ x => x).
Proof.
  intros Hy.
  destruct (spectral_transform_bins y 1 Hy) as (Y & Hst & _ & _ & Hbins); [lra |].
  exists Y. split; [exact Hst |].
  assert (Hn : (0 < length y)%nat) by (destruct y; [congruence | simpl; lia]).
  rewrite Hbins by (apply Nat.div_lt; lia).
  unfold spectrum_at. apply csum_from_ext. intros m x.
  replace (- (2 * PI * ((INR (length y / 2) - INR (length y / 2))
                         * (1 / INR (length y)) / 1) * INR m)) with 0.
  - apply Cmult_1_r.
  - unfold Rminus. rewrite Rplus_opp_r. unfold Rdiv. ring.
Qed.

Lemma spectral_transform_dc_bin_witness :
  exists Y,
    spectral_transform [RtoC 1; RtoC 2; RtoC 3] = Ok Y /\
    nth (length [RtoC 1; RtoC 2; RtoC 3] / 2) Y C0
    = Np.csum_from 0 [RtoC 1; RtoC 2; RtoC 3] (fun _ x => x).
Proof. apply (spectral_transform_dc_bin [RtoC 1; RtoC 2; RtoC 3]). discriminate. Defined.








(** ** Power spectral density *)


Lemma ln_10_pos : 0 < ln 10.
Proof. rewrite <- ln_1. apply ln_increasing; lra. Qed.


Lemma log10_pos_le (x y : R) :
  0 < x -> x <= y -> Np.log10_pos x <= Np.log10_pos y.
Proof.
  intros Hx Hxy. unfold Np.log10_pos. pose proof ln_10_pos as H10.
  apply Rmult_le_compat_r; [left; apply Rinv_0_lt_compat; assumption |].
  destruct Hxy as [Hlt | ->]; [left; apply ln_increasing; assumption | right; reflexivity].
Qed.

Lemma log10_pos_neg (x : R) : 0 < x -> x < 1 -> Np.log10_pos x < 0.
Proof.
  intros Hx Hx1. unfold Np.log10_pos. pose proof ln_10_pos as H10.
  assert (ln x < 0) by (rewrite <- ln_1; apply ln_increasing; assumption).
  apply Rmult_lt_reg_r with (ln 10); [assumption |].
  unfold Rdiv. rewrite Rmult_assoc, Rinv_l by lra. lra.
Qed.

(** A positive quotient has a denominator that is not zero. *)
Lemma ratio_pos_denominator (x s : R) : 0 < x / s -> s <> 0.
Proof. intros Hr ->. unfold Rdiv in Hr. rewrite Rinv_0 in Hr. lra. Qed.

Lemma freq_to_psd_nth_positive (data : list C) (N : Z) (fs : R) (window : list R)
    (i : nat) :
  (i < length data)%nat ->
  0 < Cmod (nth i data C0) ^ 2 / (fs * Np.sum (Np.square window)) ->
  nth i (freq_to_psd data N fs window) (Fin 0)
  = Fin (10 * Np.log10_pos
                 (Cmod (nth i data C0) ^ 2 / (fs * Np.sum (Np.square window)))).
Proof.
  intros Hi Hr. rewrite freq_to_psd_map, (nth_map_in _ _ i C0) by assumption.
  rewrite mul_nonzero by (apply (ratio_pos_denominator _ _ Hr)).
  apply psd_bin_positive. exact Hr.
Qed.

Lemma freq_to_psd_nth_clamped (data : list C) (N : Z) (fs : R) (window : list R)
    (i : nat) :
  (i < length data)%nat ->
  fs * Np.sum (Np.square window) <> 0 ->
  Cmod (nth i data C0) ^ 2 / (fs * Np.sum (Np.square window)) <= 0 ->
  nth i (freq_to_psd data N fs window) (Fin 0) = Fin 0.
Proof.
  intros Hi Hd Hr. rewrite freq_to_psd_map, (nth_map_in _ _ i C0) by assumption.
  rewrite mul_nonzero by assumption.
  apply psd_bin_clamped; assumption.
Qed.

(** X6: among the bins of non-zero magnitude the PSD keeps the order of the
    magnitudes (for a positive [fs * sum(window**2)]): both bins read a
    finite value, and a larger [|z|] never reads lower. *)
Theorem freq_to_psd_monotone (data : list C) (N : Z) (fs : R) (window : list R)
    (i j : nat) :
  (i < length data)%nat -> (j < length data)%nat ->
  0 < fs * Np.sum (Np.square window) ->
  0 < Cmod (nth i data C0) -> Cmod (nth i data C0) <= Cmod (nth j data C0) ->
  exists p_i p_j : R,
    nth i (freq_to_psd data N fs window) (Fin 0) = Fin p_i /\
    nth j (freq_to_psd data N fs window) (Fin 0) = Fin p_j /\
    p_i <= p_j.
Proof.
  intros Hi Hj HE Hpos Hle.
  set (E := fs * Np.sum (Np.square window)) in *.
  assert (Hri : 0 < Cmod (nth i data C0) ^ 2 / E)
    by (apply Rdiv_lt_0_compat; [nra | assumption]).
  assert (Hrij : Cmod (nth i data C0) ^ 2 / E <= Cmod (nth j data C0) ^ 2 / E).
  { unfold Rdiv. apply Rmult_le_compat_r; [left; apply Rinv_0_lt_compat; assumption |].
    nra. }
  do 2 eexists. split; [| split].
  - apply freq_to_psd_nth_positive; [assumption | fold E; lra].
  - apply freq_to_psd_nth_positive; [assumption | fold E; lra].
  - fold E. pose proof (log10_pos_le _ _ Hri Hrij). lra.
Qed.

Lemma freq_to_psd_monotone_witness :
  exists p_i p_j : R,
    nth 0 (freq_to_psd [(3, 4); (6, 8)] 2 1 [1; 1]) (Fin 0) = Fin p_i /\
    nth 1 (freq_to_psd [(3, 4); (6, 8)] 2 1 [1; 1]) (Fin 0) = Fin p_j /\
    p_i <= p_j.
Proof.
  assert (H34 : Cmod (3, 4) = 5).
  { unfold Cmod; simpl. replace (3 * 3 + 4 * 4) with (5 * 5) by lra.
    apply sqrt_square; lra. }
  assert (H68 : Cmod (6, 8) = 10).
  { unfold Cmod; simpl. replace (6 * 6 + 8 * 8) with (10 * 10) by lra.
    apply sqrt_square; lra. }
  apply (freq_to_psd_monotone [(3, 4); (6, 8)] 2 1 [1; 1] 0 1).
  - simpl; lia.
  - simpl; lia.
  - unfold Np.sum, Np.square; simpl. lra.
  - simpl nth. rewrite H34. lra.
  - simpl nth. rewrite H34, H68. lra.
Defined.

(** X7: the clamp breaks that order at zero: a bin of zero magnitude reads
    exactly 0 dB (the finite zero that [np.where] puts in the place of the
    minus infinity of [np.log10]), above every bin whose ratio
    [|z|^2/(fs*sum(window**2))] lies strictly between 0 and 1, which reads a
    finite negative value. *)
Theorem freq_to_psd_zero_bin_outranks (data : list C) (N : Z) (fs : R)
    (window : list R) (i j : nat) :
  (i < length data)%nat -> (j < length data)%nat ->
  Cmod (nth i data C0) = 0 ->
  0 < Cmod (nth j data C0) ^ 2 / (fs * Np.sum (Np.square window)) < 1 ->
  nth i (freq_to_psd data N fs window) (Fin 0) = Fin 0 /\
  exists p_j : R,
    nth j (freq_to_psd data N fs window) (Fin 0) = Fin p_j /\ p_j < 0.
Proof.
  intros Hi Hj Hzero [Hpos Hlt1]. split.
  - apply freq_to_psd_nth_clamped;
      [assumption | apply (ratio_pos_denominator _ _ Hpos) |].
    rewrite Hzero. unfold Rdiv. rewrite pow_ne_zero by lia. lra.
  - eexists. split; [apply freq_to_psd_nth_positive; assumption |].
    pose proof (log10_pos_neg _ Hpos Hlt1). lra.
Qed.

Lemma freq_to_psd_zero_bin_outranks_witness :
  nth 0 (freq_to_psd [(0, 0); (3, 4)] 2 100 [1; 1]) (Fin 0) = Fin 0 /\
  exists p_j : R,
    nth 1 (freq_to_psd [(0, 0); (3, 4)] 2 100 [1; 1]) (Fin 0) = Fin p_j /\ p_j < 0.
Proof.
  assert (H34 : Cmod (3, 4) = 5).
  { unfold Cmod; simpl. replace (3 * 3 + 4 * 4) with (5 * 5) by lra.
    apply sqrt_square; lra. }
  assert (H00 : Cmod (0, 0) = 0).
  { unfold Cmod; simpl. replace (0 * 0 + 0 * 0) with 0 by lra. apply sqrt_0. }
  apply (freq_to_psd_zero_bin_outranks [(0, 0); (3, 4)] 2 100 [1; 1] 0 1).
  - simpl; lia.
  - simpl; lia.
  - exact H00.
  - simpl nth. rewrite H34. unfold Np.sum, Np.square; simpl. lra.
Defined.



Lemma sum_square_ones (n : nat) : Np.sum (Np.square (np_ones n)) = INR n.
Proof.
  unfold np_ones, Np.sum, Np.square. induction n as [|n IH]; [reflexivity |].
  rewrite S_INR. cbn [repeat map fold_right]. rewrite IH. simpl. ring.
Qed.

(** X9: with the default window, [np.ones(n)], the normalisation is by
    [fs*n]: a bin of positive ratio reads [10*log10(|z|^2/(fs*n))]. *)
Theorem freq_to_psd_rectangular (data : list C) (N : Z) (fs : R) (n i : nat) :
  (i < length data)%nat ->
  0 < Cmod (nth i data C0) ^ 2 / (fs * INR n) ->
  nth i (freq_to_psd data N fs (np_ones n)) (Fin 0)
  = Fin (10 * Np.log10_pos (Cmod (nth i data C0) ^ 2 / (fs * INR n))).
Proof.
  intros Hi Hr. rewrite <- (sum_square_ones n) in *.
  apply freq_to_psd_nth_positive; assumption.
Qed.

Lemma freq_to_psd_rectangular_witness :
  nth 0 (freq_to_psd [(3, 4)] 1229 2 (np_ones 4)) (Fin 0)
  = Fin (10 * Np.log10_pos (Cmod (nth 0 [(3, 4)] C0) ^ 2 / (2 * INR 4))).
Proof.
  assert (H34 : Cmod (3, 4) = 5).
  { unfold Cmod; simpl. replace (3 * 3 + 4 * 4) with (5 * 5) by lra.
    apply sqrt_square; lra. }
  apply (freq_to_psd_rectangular [(3, 4)] 1229 2 4 0).
  - simpl; lia.
  - simpl nth. rewrite H34. simpl INR. lra.
Defined.

(** ** Windows *)

Lemma Cmult_RtoC_1 (z : C) : Cmult z (RtoC 1) = z.
Proof. unfold Cmult, RtoC. destruct z as [a b]; simpl. f_equal; ring. Qed.

(** X10: the rectangular window changes nothing: windowing a sample vector
    with [np.ones] of its length returns the vector. *)
Theorem windowed_ones (x : list C) : windowed x (np_ones (length x)) = Ok x.
Proof.
  unfold windowed, Np.multiply, np_ones.
  rewrite repeat_length, Nat.eqb_refl. f_equal.
  induction x as [|z x IH]; [reflexivity |].
  cbn [length repeat combine map fst snd]. rewrite IH, Cmult_RtoC_1. reflexivity.
Qed.

Lemma windowed_same_length (x : list C) (w : list R) :
  length x = length w ->
  windowed x w = Ok (map (fun xw => Cmult (fst xw) (RtoC (snd xw))) (combine x w)).
Proof.
  intros Hlen. unfold windowed, Np.multiply.
  rewrite (proj2 (Nat.eqb_eq _ _) Hlen). reflexivity.
Qed.

Lemma windowed_same_length_nth (x : list C) (w : list R) (i : nat) :
  length x = length w -> (i < length x)%nat ->
  nth i (map (fun xw => Cmult (fst xw) (RtoC (snd xw))) (combine x w)) C0
  = Cmult (nth i x C0) (RtoC (nth i w 0)).
Proof.
  intros Hlen Hi.
  rewrite (nth_map_in _ _ i (C0, 0)) by (rewrite length_combine; lia).
  rewrite nth_combine_in by assumption. reflexivity.
Qed.

(** ** The loops of notebook 02 *)

Lemma rmap_Forall2 {A B : Type} (f : A -> result B) (l : list A) (l' : list B) :
  Forall2 (fun x y => f x = Ok y) l l' -> rmap f l = Ok l'.
Proof.
  induction 1 as [| x y l l' Hxy Hrest IH]; [reflexivity |].
  simpl. rewrite Hxy. simpl. rewrite IH. reflexivity.
Qed.

Lemma rmap_raises {A B : Type} (f : A -> result B) (l : list A) (e : pyexn) :
  (forall x, In x l -> (exists y, f x = Ok y) \/ f x = Raised e) ->
  (exists x, In x l /\ f x = Raised e) ->
  rmap f l = Raised e.
Proof.
  induction l as [|x l IH]; intros Hall [x0 [Hin Hx0]]; [contradiction |].
  simpl. destruct (Hall x (or_introl eq_refl)) as [[y Hy] | He].
  - rewrite Hy. simpl.
    assert (Hrest : rmap f l = Raised e).
    { apply IH; [intros x1 H1; apply Hall; right; exact H1 |].
      destruct Hin as [<- | Hin]; [congruence | exists x0; split; assumption]. }
    rewrite Hrest. reflexivity.
  - rewrite He. reflexivity.
Qed.

Lemma windowed_ok_or_value_error (x : list C) (w : list R) :
  (exists y, windowed x w = Ok y) \/ windowed x w = Raised ValueError.
Proof.
  unfold windowed, Np.multiply.
  destruct (Nat.eqb (length x) (length w)); [left; eexists; reflexivity |].
  destruct x as [|x0 [|x1 x']]; destruct w as [|w0 [|w1 w']];
    first [left; eexists; reflexivity | right; reflexivity].
Qed.

Lemma Forall2_map_r {A B : Type} (P : A -> B -> Prop) (g : A -> B) (l : list A) :
  (forall x, In x l -> P x (g x)) -> Forall2 P l (map g l).
Proof.
  induction l as [|x l IH]; intros H; simpl; constructor.
  - apply H. left; reflexivity.
  - apply IH. intros y Hy. apply H. right; exact Hy.
Qed.

(** X13: the windowing loop leaves out the captures of channels 0 and 1.
    When every capture from channel 2 on has the length of the window it
    returns one windowed vector per such channel, entry [j] being capture
    [j+2] times the window; when one of them has a length that cannot be
    broadcast against the window, the loop raises [ValueError] and yields
    nothing. *)
Theorem wdata_spec (cdata : list (list C)) (window : list R) :
  ((forall c, In c (skipn 2 cdata) -> length c = length window) ->
   exists wd,
     wdata cdata window = Ok wd /\ length wd = (length cdata - 2)%nat /\
     forall j k, (j < length cdata - 2)%nat -> (k < length window)%nat ->
       nth k (nth j wd []) C0
       = Cmult (nth k (nth (j + 2) cdata []) C0) (RtoC (nth k window 0))) /\
  ((exists c, In c (skipn 2 cdata) /\ length c <> length window /\
              length c <> 1%nat /\ length window <> 1%nat) ->
   wdata cdata window = Raised ValueError).
Proof.
  split.
  - intros Hlen.
    exists (map (fun c => map (fun xw => Cmult (fst xw) (RtoC (snd xw)))
                           (combine c window)) (skipn 2 cdata)).
    split; [| split].
    + unfold wdata. apply rmap_Forall2. apply Forall2_map_r.
      intros c Hc. apply windowed_same_length. apply Hlen. exact Hc.
    + rewrite length_map, length_skipn. reflexivity.
    + intros j k Hj Hk.
      rewrite (nth_map_in _ _ j []) by (rewrite length_skipn; exact Hj).
      rewrite nth_skipn, (Nat.add_comm 2 j).
      assert (Hc : length (nth (j + 2) cdata []) = length window).
      { apply Hlen. rewrite <- (Nat.add_comm 2 j), <- nth_skipn.
        apply nth_In. rewrite length_skipn. exact Hj. }
      apply windowed_same_length_nth; [exact Hc | rewrite Hc; exact Hk].
  - intros (c & Hin & Hne & Hc1 & Hw1). unfold wdata.
    apply rmap_raises.
    + intros x _. apply windowed_ok_or_value_error.
    + exists c. split; [exact Hin |].
      unfold windowed, Np.multiply. rewrite (proj2 (Nat.eqb_neq _ _) Hne).
      destruct c as [|c0 [|c1 c']]; destruct window as [|w0 [|w1 w']];
        simpl in *; try reflexivity; lia.
Qed.

Lemma wdata_spec_witness :
  (exists wd,
     wdata [[(9, 9)]; []; [(1, 0); (0, 1)]; [(2, 0); (0, 2)]] [3; 4] = Ok wd /\
     length wd = 2%nat /\
     forall j k, (j < 2)%nat -> (k < 2)%nat ->
       nth k (nth j wd []) C0
       = Cmult (nth k (nth (j + 2) [[(9, 9)]; []; [(1, 0); (0, 1)]; [(2, 0); (0, 2)]] [])
                  C0)
           (RtoC (nth k [3; 4] 0))) /\
  wdata [[]; []; [(1, 0); (0, 1)]; [(2, 0); (0, 2); (0, 0)]] [3; 4] = Raised ValueError.
Proof.
  split.
  - apply (proj1 (wdata_spec [[(9, 9)]; []; [(1, 0); (0, 1)]; [(2, 0); (0, 2)]] [3; 4])).
    intros c [<- | [<- | []]]; reflexivity.
  - apply (proj2 (wdata_spec [[]; []; [(1, 0); (0, 1)]; [(2, 0); (0, 2); (0, 0)]] [3; 4])).
    exists [(2, 0); (0, 2); (0, 0)]. simpl. repeat split; try lia. right; left; reflexivity.
Defined.

Lemma spectral_transform_ok (y : list C) :
  y <> [] ->
  spectral_transform y = Ok (Np.fftshift (map (Np.dft_bin y) (seq 0 (length y)))).
Proof. intros Hy. destruct y; [congruence | reflexivity]. Qed.

(** X14: the analysis cells in sequence (window, transform, PSD).  When every
    capture from channel 2 on has the length [n >= 1] of the window, they end
    with one PSD vector of [n] bins per such channel.  With zero samples, an
    empty window over empty captures, the windowing passes and the transform
    raises [ValueError] as soon as there is a third channel. *)
Theorem spectrum_analysis_shapes (cdata : list (list C)) (N : Z) (fs : R)
    (window : list R) :
  (forall c, In c (skipn 2 cdata) -> length c = length window) ->
  (window <> [] ->
   exists psds,
     spectrum_analysis cdata N fs window = Ok psds /\
     length psds = (length cdata - 2)%nat /\
     forall p, In p psds -> length p = length window) /\
  (window = [] -> (2 < length cdata)%nat ->
   spectrum_analysis cdata N fs window = Raised ValueError).
Proof.
  intros Hlen.
  set (wd := map (fun c => map (fun xw => Cmult (fst xw) (RtoC (snd xw)))
                             (combine c window)) (skipn 2 cdata)).
  assert (Hwd : wdata cdata window = Ok wd).
  { unfold wdata. apply rmap_Forall2. apply Forall2_map_r.
    intros c Hc. apply windowed_same_length. apply Hlen. exact Hc. }
  assert (Hwdlen : forall y, In y wd -> length y = length window).
  { intros y Hy. unfold wd in Hy. apply in_map_iff in Hy.
    destruct Hy as (c & <- & Hc). rewrite length_map, length_combine, (Hlen c Hc). lia. }
  split.
  - intros Hw.
    set (fd := map (fun y => Np.fftshift (map (Np.dft_bin y) (seq 0 (length y)))) wd).
    assert (Hfd : fdata wd = Ok fd).
    { unfold fdata. apply rmap_Forall2. apply Forall2_map_r.
      intros y Hy. apply spectral_transform_ok.
      intros E. apply Hwdlen in Hy. rewrite E in Hy. destruct window; [congruence | discriminate]. }
    exists (psd fd N fs window). unfold spectrum_analysis. rewrite Hwd. cbn [rbind].
    rewrite Hfd. cbn [rbind]. split; [reflexivity | split].
    + unfold psd, fd, wd. rewrite !length_map, length_skipn. reflexivity.
    + intros p Hp. unfold psd in Hp. apply in_map_iff in Hp.
      destruct Hp as (d & <- & Hd). rewrite freq_to_psd_map, length_map.
      unfold fd in Hd. apply in_map_iff in Hd. destruct Hd as (y & <- & Hy).
      rewrite fftshift_length, length_map, length_seq. apply Hwdlen. exact Hy.
  - intros Hw Hc. unfold spectrum_analysis. rewrite Hwd. cbn [rbind].
    assert (Hfd : fdata wd = Raised ValueError).
    { unfold fdata. apply rmap_raises.
      - intros y _. destruct y; [right; reflexivity | left; eexists; reflexivity].
      - assert (Hn : (0 < length wd)%nat)
          by (unfold wd; rewrite length_map, length_skipn; lia).
        exists (nth 0 wd []). split; [apply nth_In; exact Hn |].
        assert (Hy : length (nth 0 wd []) = length window)
          by (apply Hwdlen, nth_In; exact Hn).
        rewrite Hw in Hy. destruct (nth 0 wd []); [reflexivity | discriminate]. }
    rewrite Hfd. reflexivity.
Qed.

Lemma spectrum_analysis_shapes_witness :
  (exists psds,
     spectrum_analysis [[]; []; [(1, 0); (0, 1)]; [(2, 0); (0, 2)]] 2 2458e6
       (np_ones 2) = Ok psds /\
     length psds = 2%nat /\
     forall p, In p psds -> length p = length (np_ones 2)) /\
  spectrum_analysis [[]; []; []; []] 0 2458e6 (np_ones 0) = Raised ValueError.
Proof.
  split.
  - apply (proj1 (spectrum_analysis_shapes [[]; []; [(1, 0); (0, 1)]; [(2, 0); (0, 2)]]
                    2 2458e6 (np_ones 2)
                    ltac:(intros c [<- | [<- | []]]; reflexivity))).
    discriminate.
  - apply (proj2 (spectrum_analysis_shapes [[]; []; []; []] 0 2458e6 (np_ones 0)
                    ltac:(intros c [<- | [<- | []]]; reflexivity))).
    + reflexivity.
    + simpl; lia.
Defined.

(** ** The estimators *)

(** X17: the errors of [calculate_fundamental] in the order they arise: a
    [number_samples] of zero raises [ZeroDivisionError] whatever the
    spectrum, also an empty one; with a non-zero [number_samples] an empty
    spectrum raises [IndexError]. *)
Theorem calculate_fundamental_errors (argsort : list R -> list nat)
    (spectrum : list R) (sample_frequency : R) (number_samples : Z)
    (receive_frequency : R) :
  argsort_contract argsort ->
  calculate_fundamental argsort spectrum sample_frequency 0 receive_frequency
    = Raised ZeroDivisionError /\
  (number_samples <> 0%Z ->
   calculate_fundamental argsort [] sample_frequency number_samples receive_frequency
     = Raised IndexError).
Proof.
  intros Hc. split; [reflexivity |].
  intros HN. unfold calculate_fundamental, peak_index.
  rewrite (proj2 (Z.eqb_neq _ _) HN).
  destruct (Hc []) as [Hperm _]. simpl in Hperm.
  apply Permutation_sym, Permutation_nil in Hperm. rewrite Hperm. reflexivity.
Qed.

Lemma calculate_fundamental_errors_witness :
  calculate_fundamental Np.argsort_insertion [1; 2] 2457.6e6 0 1228.8e6
    = Raised ZeroDivisionError /\
  calculate_fundamental Np.argsort_insertion [] 2457.6e6 12288 1228.8e6
    = Raised IndexError.
Proof.
  destruct (calculate_fundamental_errors Np.argsort_insertion [1; 2] 2457.6e6 12288
              1228.8e6 argsort_insertion_contract) as [H0 He].
  split; [exact H0 | apply He; discriminate].
Defined.

Lemma calculate_fundamental_band (argsort : list R -> list nat)
    (spectrum : list R) (sample_frequency : R) (number_samples : Z)
    (receive_frequency : R) :
  argsort_contract argsort -> spectrum <> [] ->
  Z.of_nat (length spectrum) = number_samples -> 0 < sample_frequency ->
  exists f,
    calculate_fundamental argsort spectrum sample_frequency number_samples
      receive_frequency = Ok f /\
    receive_frequency - sample_frequency / 2 <= f
      < receive_frequency + sample_frequency / 2.
Proof.
  intros Hc Hne HN Hfs.
  destruct (peak_index_spec argsort Hc spectrum Hne) as (p & Hp & Hlt & _).
  assert (HN0 : number_samples <> 0%Z).
  { destruct spectrum; [congruence | simpl in HN; lia]. }
  unfold calculate_fundamental. rewrite (proj2 (Z.eqb_neq _ _) HN0), Hp. cbn [rbind].
  eexists. split; [reflexivity |].
  rewrite <- HN, <- INR_IZR_INZ.
  assert (Hlen : 0 < INR (length spectrum)) by (apply lt_0_INR; lia).
  assert (Hp0 : 0 <= INR p) by apply pos_INR.
  assert (Hp1 : INR p < INR (length spectrum)) by (apply lt_INR; exact Hlt).
  assert (Hbw : 0 < sample_frequency / INR (length spectrum))
    by (apply Rdiv_lt_0_compat; assumption).
  assert (Hfull : INR (length spectrum) * (sample_frequency / INR (length spectrum))
                  = sample_frequency) by (field; lra).
  split; nra.
Qed.

(** X18: when the spectrum has [number_samples] bins (at least one) and the
    sample frequency is positive, the fundamental estimate lies in the band
    the analyser sees: [receive_frequency - fs/2 <= f < receive_frequency + fs/2]. *)
Theorem calculate_fundamental_in_band (argsort : list R -> list nat)
    (spectrum : list R) (sample_frequency : R) (number_samples : Z)
    (receive_frequency : R) :
  argsort_contract argsort -> spectrum <> [] ->
  Z.of_nat (length spectrum) = number_samples -> 0 < sample_frequency ->
  exists f,
    calculate_fundamental argsort spectrum sample_frequency number_samples
      receive_frequency = Ok f /\
    receive_frequency - sample_frequency / 2 <= f
      < receive_frequency + sample_frequency / 2.
Proof.
  intros Hc Hne HN Hfs.
  apply calculate_fundamental_band; assumption.
Qed.

Lemma calculate_fundamental_in_band_witness :
  exists f,
    calculate_fundamental Np.argsort_insertion [3; 9; 4] 2457.6e6 3 1228.8e6 = Ok f /\
    1228.8e6 - 2457.6e6 / 2 <= f < 1228.8e6 + 2457.6e6 / 2.
Proof.
  apply (calculate_fundamental_in_band Np.argsort_insertion [3; 9; 4] 2457.6e6 3
           1228.8e6 argsort_insertion_contract).
  - discriminate.
  - reflexivity.
  - lra.
Defined.

(** X19: for a spectrum with a single maximum, at bin [k], the estimate is
    [k*(fs/N) + receive_frequency - fs/2] under every sort that meets the
    contract of [np.argsort]: the order of equal values plays no part. *)
Theorem calculate_fundamental_single_peak (argsort : list R -> list nat)
    (spectrum : list R) (k : nat) (sample_frequency : R) (number_samples : Z)
    (receive_frequency : R) :
  argsort_contract argsort -> number_samples <> 0%Z ->
  (k < length spectrum)%nat ->
  (forall j, (j < length spectrum)%nat -> j <> k ->
     nth j spectrum 0 < nth k spectrum 0) ->
  calculate_fundamental argsort spectrum sample_frequency number_samples
    receive_frequency
  = Ok (INR k * (sample_frequency / IZR number_samples)
        + receive_frequency - sample_frequency / 2).
Proof.
  intros Hc HN Hk Hpeak. unfold calculate_fundamental.
  rewrite (proj2 (Z.eqb_neq _ _) HN).
  rewrite (peak_index_unique argsort Hc spectrum k Hk Hpeak). reflexivity.
Qed.

Lemma calculate_fundamental_single_peak_witness :
  calculate_fundamental Np.argsort_insertion [3; 9; 4] 2457.6e6 12288 1228.8e6
  = Ok (INR 1 * (2457.6e6 / IZR 12288) + 1228.8e6 - 2457.6e6 / 2).
Proof.
  apply (calculate_fundamental_single_peak Np.argsort_insertion [3; 9; 4] 1
           2457.6e6 12288 1228.8e6 argsort_insertion_contract).
  - discriminate.
  - simpl; lia.
  - intros j Hj Hne. simpl in Hj.
    destruct j as [|[|[|j]]]; simpl; try lra; lia.
Defined.

(** ** The calls of the sweep *)

Section ScriptsOfPrograms.

Context {Gen Ana W : Type}.
Variable h : handler Gen Ana W.

Lemma follows_ret {A : Type} (a : A) : follows h [] (Ret a).
Proof.
  intros w. unfold trace_of, outcome_of; simpl.
  split; [exists []; reflexivity | reflexivity].
Qed.

Lemma follows_lift {A : Type} (r : result A) : follows h [] (lift r).
Proof.
  intros w. unfold trace_of, outcome_of. rewrite exec_lift; simpl.
  split; [exists []; reflexivity | reflexivity].
Qed.

Lemma follows_do {A : Type} (c : command Gen Ana) (k : prog Gen Ana A)
    (script : list call) :
  follows h script k -> follows h (CallDo c :: script) (Do c k).
Proof.
  intros Hk w. unfold trace_of, outcome_of. cbn [exec].
  destruct (on_command h c w) as [[u | e] w1].
  - destruct (Hk w1) as [[rest Hpre] Hok]. unfold trace_of, outcome_of in Hpre, Hok.
    destruct (exec h k w1) as [[t o] w2]; simpl in *.
    split; [exists rest; rewrite Hpre; reflexivity |].
    intros a Ha. rewrite (Hok a Ha). reflexivity.
  - simpl. split; [exists script; reflexivity | intros ? H; discriminate H].
Qed.

Lemma follows_get {A : Type} (a : Ana) (k : list R -> prog Gen Ana A)
    (script : list call) :
  (forall spectrum, follows h script (k spectrum)) ->
  follows h (CallGet a :: script) (GetSpectrum a k).
Proof.
  intros Hk w. unfold trace_of, outcome_of. cbn [exec].
  destruct (on_get_spectrum h a w) as [[spectrum | e] w1].
  - destruct (Hk spectrum w1) as [[rest Hpre] Hok].
    unfold trace_of, outcome_of in Hpre, Hok.
    destruct (exec h (k spectrum) w1) as [[t o] w2]; simpl in *.
    split; [exists rest; rewrite Hpre; reflexivity |].
    intros x Hx. rewrite (Hok x Hx). reflexivity.
  - simpl. split; [exists script; reflexivity | intros ? H; discriminate H].
Qed.

Lemma follows_bind {A B : Type} (p : prog Gen Ana A) (f : A -> prog Gen Ana B)
    (s1 s2 : list call) :
  follows h s1 p -> (forall a, follows h s2 (f a)) -> follows h (s1 ++ s2) (bind p f).
Proof.
  intros Hp Hf w. unfold trace_of, outcome_of. rewrite exec_bind.
  destruct (Hp w) as [[rest1 Hpre1] Hok1]. unfold trace_of, outcome_of in Hpre1, Hok1.
  destruct (exec h p w) as [[t1 [a | e]] w1]; simpl in Hpre1, Hok1.
  - destruct (Hf a w1) as [[rest2 Hpre2] Hok2].
    unfold trace_of, outcome_of in Hpre2, Hok2.
    destruct (exec h (f a) w1) as [[t2 o2] w2]; simpl in *.
    rewrite map_app, (Hok1 a eq_refl).
    split; [exists rest2; rewrite Hpre2, app_assoc; reflexivity |].
    intros b Hb. rewrite (Hok2 b Hb). reflexivity.
  - simpl. split; [| intros ? H; discriminate H].
    exists (rest1 ++ s2). rewrite Hpre1, app_assoc. reflexivity.
Qed.

Lemma follows_for_each {X S : Type} (xs : list X) (body : X -> S -> prog Gen Ana S)
    (script : X -> list call) :
  (forall x s, follows h (script x) (body x s)) ->
  forall s, follows h (flat_map script xs) (for_each xs body s).
Proof.
  intros Hbody. induction xs as [|x xs IH]; intros s.
  - apply follows_ret.
  - cbn [flat_map for_each]. apply follows_bind; [apply Hbody | exact IH].
Qed.

(** Events that end a run. *)
Lemma fatal_ret {A : Type} (deadly : event Gen Ana -> pyexn -> Prop) (a : A) :
  fatal h deadly (Ret a).
Proof. intros w ev e Hin. contradiction. Qed.

Lemma fatal_lift {A : Type} (deadly : event Gen Ana -> pyexn -> Prop) (r : result A) :
  fatal h deadly (lift r).
Proof. intros w ev e Hin. unfold trace_of in Hin. rewrite exec_lift in Hin. contradiction. Qed.

Lemma fatal_do {A : Type} (deadly : event Gen Ana -> pyexn -> Prop)
    (c : command Gen Ana) (k : prog Gen Ana A) :
  (forall r e, ~ deadly (EvDo c r) e) ->
  fatal h deadly k -> fatal h deadly (Do c k).
Proof.
  intros Hnot Hk w ev e. unfold trace_of, outcome_of. cbn [exec].
  destruct (on_command h c w) as [[u | e0] w1].
  - specialize (Hk w1 ev e). unfold trace_of, outcome_of in Hk.
    destruct (exec h k w1) as [[t o] w2]; simpl in *.
    intros [<- | Hin] Hd; [exfalso; exact (Hnot _ _ Hd) | apply Hk; assumption].
  - simpl. intros [<- | []] Hd. exfalso; exact (Hnot _ _ Hd).
Qed.

Lemma fatal_get {A : Type} (deadly : event Gen Ana -> pyexn -> Prop)
    (a : Ana) (k : list R -> prog Gen Ana A) :
  (forall e0 e, ~ deadly (EvGet a (Raised e0)) e) ->
  (forall spectrum e w, deadly (EvGet a (Ok spectrum)) e ->
     outcome_of h (k spectrum) w = Raised e) ->
  (forall spectrum, fatal h deadly (k spectrum)) ->
  fatal h deadly (GetSpectrum a k).
Proof.
  intros Hnot Hnow Hk w ev e. unfold trace_of, outcome_of. cbn [exec].
  destruct (on_get_spectrum h a w) as [[spectrum | e0] w1].
  - specialize (Hk spectrum w1 ev e). specialize (Hnow spectrum e w1).
    unfold trace_of, outcome_of in Hk, Hnow.
    destruct (exec h (k spectrum) w1) as [[t o] w2]; simpl in *.
    intros [<- | Hin] Hd; [apply Hnow; exact Hd | apply Hk; assumption].
  - simpl. intros [<- | []] Hd. exfalso; exact (Hnot _ _ Hd).
Qed.

Lemma fatal_bind {A B : Type} (deadly : event Gen Ana -> pyexn -> Prop)
    (p : prog Gen Ana A) (f : A -> prog Gen Ana B) :
  fatal h deadly p -> (forall a, fatal h deadly (f a)) -> fatal h deadly (bind p f).
Proof.
  intros Hp Hf w ev e. unfold trace_of, outcome_of. rewrite exec_bind.
  specialize (Hp w ev e). unfold trace_of, outcome_of in Hp.
  destruct (exec h p w) as [[t1 [a | e0]] w1]; simpl in Hp.
  - specialize (Hf a w1 ev e). unfold trace_of, outcome_of in Hf.
    destruct (exec h (f a) w1) as [[t2 o2] w2]; simpl in *.
    intros Hin Hd. apply in_app_or in Hin. destruct Hin as [Hin | Hin].
    + specialize (Hp Hin Hd). discriminate Hp.
    + apply Hf; assumption.
  - simpl. intros Hin Hd. specialize (Hp Hin Hd). congruence.
Qed.

Lemma fatal_for_each {X S : Type} (deadly : event Gen Ana -> pyexn -> Prop)
    (xs : list X) (body : X -> S -> prog Gen Ana S) :
  (forall x s, fatal h deadly (body x s)) ->
  forall s, fatal h deadly (for_each xs body s).
Proof.
  intros Hbody. induction xs as [|x xs IH]; intros s.
  - apply fatal_ret.
  - cbn [for_each]. apply fatal_bind; [apply Hbody | exact IH].
Qed.

Variable argsort : list R -> list nat.
Variable generators : list Gen.
Variable analysers : list Ana.
Variable sample_frequency : R.
Variable number_samples : Z.

Lemma generator_body_follows (amplitude f : R) (g : Gen) (s : unit) :
  follows h (generator_calls amplitude f g) (generator_body amplitude f g s).
Proof.
  unfold generator_calls, generator_body.
  repeat apply follows_do. apply follows_ret.
Qed.

Lemma analyser_body_follows (f : R) (a : Ana) (acc : list R * list R) :
  follows h (analyser_calls sample_frequency f a)
    (analyser_body argsort sample_frequency number_samples f a acc).
Proof.
  unfold analyser_calls, analyser_body.
  repeat apply follows_do. apply follows_get. intros spectrum.
  change (@nil (@call Gen Ana)) with (@nil (@call Gen Ana) ++ ([] ++ ([] ++ ([] ++ [])))).
  repeat (apply follows_bind; [apply follows_lift | intros ?]).
  apply follows_ret.
Qed.

Lemma run_spectrum_sweep_follows (frequencies : list R) (amplitude : R) :
  follows h (sweep_calls generators analysers sample_frequency amplitude frequencies)
    (run_spectrum_sweep argsort generators analysers sample_frequency number_samples
       frequencies amplitude).
Proof.
  unfold run_spectrum_sweep, sweep_calls.
  rewrite <- (app_nil_r (flat_map _ frequencies)).
  apply follows_bind; [| intros acc; apply follows_ret].
  apply follows_for_each. intros f acc. unfold frequency_body, round_calls.
  apply follows_bind.
  - apply follows_for_each. intros g s. apply generator_body_follows.
  - intros _. apply follows_do. apply follows_for_each.
    intros a acc1. apply analyser_body_follows.
Qed.

(** X21: the calls of [run_spectrum_sweep], in order: for each frequency of
    the list, enable, gain and centre frequency on every generator, one
    [time.sleep(1)], then on every analyser the zone centre on the frequency
    selector (MHz) and on the plot (Hz), [update_spectrum] and
    [get_spectrum].  A sweep that returns has made exactly these calls; one
    that an exception ends has made a prefix of them. *)
Theorem run_spectrum_sweep_script (frequencies : list R) (amplitude : R) (w : W) :
  (exists rest,
     sweep_calls generators analysers sample_frequency amplitude frequencies
     = map call_of
         (trace_of h (run_spectrum_sweep argsort generators analysers
                        sample_frequency number_samples frequencies amplitude) w)
       ++ rest) /\
  (forall tables,
     outcome_of h (run_spectrum_sweep argsort generators analysers
                     sample_frequency number_samples frequencies amplitude) w
       = Ok tables ->
     map call_of
       (trace_of h (run_spectrum_sweep argsort generators analysers
                      sample_frequency number_samples frequencies amplitude) w)
     = sweep_calls generators analysers sample_frequency amplitude frequencies).
Proof. apply run_spectrum_sweep_follows. Qed.

Lemma sweep_calls_allowed (frequencies : list R) (amplitude : R) (c : @call Gen Ana) :
  In c (sweep_calls generators analysers sample_frequency amplitude frequencies) ->
  sweep_call_allowed generators analysers amplitude frequencies c.
Proof.
  unfold sweep_calls. intros Hin. apply in_flat_map in Hin.
  destruct Hin as (f & Hf & Hin). unfold round_calls in Hin.
  apply in_app_or in Hin. destruct Hin as [Hin | [<- | Hin]].
  - apply in_flat_map in Hin. destruct Hin as (g & Hg & Hin).
    destruct Hin as [<- | [<- | [<- | []]]]; simpl; auto.
  - reflexivity.
  - apply in_flat_map in Hin. destruct Hin as (a & Ha & Hin).
    assert (Hz : receive_frequency_for sample_frequency f = 1228.8 \/
                 receive_frequency_for sample_frequency f = 3686.4).
    { unfold receive_frequency_for.
      destruct (Rlt_dec (f * 1e6) sample_frequency); [left | right]; reflexivity. }
    destruct Hin as [<- | [<- | [<- | [<- | []]]]]; simpl; auto.
    split; [exact Ha |]. destruct Hz as [-> | ->]; [left | right]; reflexivity.
Qed.

(** X22: what a sweep never does: whether it returns or raises, every call
    it makes is on one of its own generators or analysers; it only ever
    enables a generator (never switches one off), sets no gain but the given
    amplitude and no generator frequency outside the list, sleeps one second
    at a time, and tunes the analysers to one of the two zone centres only. *)
Theorem run_spectrum_sweep_calls_allowed (frequencies : list R) (amplitude : R)
    (w : W) (ev : event Gen Ana) :
  In ev (trace_of h (run_spectrum_sweep argsort generators analysers
                       sample_frequency number_samples frequencies amplitude) w) ->
  sweep_call_allowed generators analysers amplitude frequencies (call_of ev).
Proof.
  intros Hin. apply sweep_calls_allowed.
  destruct (run_spectrum_sweep_follows frequencies amplitude w) as [[rest Hpre] _].
  rewrite Hpre. apply in_or_app. left. apply in_map. exact Hin.
Qed.

Lemma map_const_seq {B : Type} (b : B) (start n : nat) :
  map (fun _ => b) (seq start n) = repeat b n.
Proof.
  revert start; induction n as [|n IH]; intros start; [reflexivity |].
  cbn [seq map repeat]. f_equal. apply IH.
Qed.

(** X23: a sweep over no frequency makes no call at all and returns, per
    analyser, a table of three empty rows. *)
Theorem run_spectrum_sweep_no_frequency (amplitude : R) (w : W) :
  exec h (run_spectrum_sweep argsort generators analysers sample_frequency
            number_samples [] amplitude) w
  = ([], Ok (repeat [[]; []; []] (length analysers)), w).
Proof.
  unfold run_spectrum_sweep. cbn [for_each bind exec]. do 2 f_equal. f_equal.
  unfold result_table, slice_step. cbn [fst snd take_every].
  apply map_const_seq.
Qed.

Lemma analyser_tail_fatal (deadly : event Gen Ana -> pyexn -> Prop)
    (f : R) (acc : list R * list R) (spectrum : list R) :
  fatal h deadly
    (bind (lift (Np.max spectrum)) (fun maxvalue =>
     bind (lift (peak_index argsort spectrum)) (fun maxindex =>
     bind (lift (calculate_fundamental argsort spectrum sample_frequency
                   number_samples (receive_frequency_for sample_frequency f * 1e6)))
       (fun f0 =>
     bind (lift (calculate_simple_snr spectrum)) (fun s =>
     Ret (Gen := Gen) (Ana := Ana) (fst acc ++ [f0 * 1e-6], snd acc ++ [s])))))).
Proof.
  repeat (apply fatal_bind; [apply fatal_lift | intros ?]).
  apply fatal_ret.
Qed.

Lemma sweep_fatal (deadly : event Gen Ana -> pyexn -> Prop)
    (frequencies : list R) (amplitude : R) :
  (forall ev e, deadly ev e -> exists a spectrum, ev = EvGet a (Ok spectrum)) ->
  (forall f a acc spectrum e w,
     deadly (EvGet a (Ok spectrum)) e ->
     outcome_of h
       (bind (lift (Np.max spectrum)) (fun maxvalue =>
        bind (lift (peak_index argsort spectrum)) (fun maxindex =>
        bind (lift (calculate_fundamental argsort spectrum sample_frequency
                      number_samples
                      (receive_frequency_for sample_frequency f * 1e6)))
          (fun f0 =>
        bind (lift (calculate_simple_snr spectrum)) (fun s =>
        Ret (Gen := Gen) (Ana := Ana)
          (fst acc ++ [f0 * 1e-6], snd acc ++ [s])))))) w
     = Raised e) ->
  fatal h deadly
    (run_spectrum_sweep argsort generators analysers sample_frequency number_samples
       frequencies amplitude).
Proof.
  intros Hshape Hnow.
  assert (Hdo : forall c r e, ~ deadly (EvDo c r) e).
  { intros c r e Hd. destruct (Hshape _ _ Hd) as (a & sp & E). discriminate E. }
  assert (Hraised : forall a e0 e, ~ deadly (EvGet a (Raised e0)) e).
  { intros a e0 e Hd. destruct (Hshape _ _ Hd) as (a' & sp & E). discriminate E. }
  unfold run_spectrum_sweep.
  apply fatal_bind; [| intros acc; apply fatal_ret].
  apply fatal_for_each. intros f acc. unfold frequency_body.
  apply fatal_bind.
  - apply fatal_for_each. intros g s. unfold generator_body.
    repeat (apply fatal_do; [apply Hdo |]). apply fatal_ret.
  - intros _. apply fatal_do; [apply Hdo |].
    apply fatal_for_each. intros a acc1. unfold analyser_body.
    repeat (apply fatal_do; [apply Hdo |]).
    apply fatal_get.
    + apply Hraised.
    + intros spectrum e w Hd. apply (Hnow f a acc1 spectrum e w Hd).
    + intros spectrum. apply analyser_tail_fatal.
Qed.

(** X24: an analyser that returns a spectrum without a bin ends the sweep:
    [np.max] raises [ValueError], no table is returned. *)
Theorem run_spectrum_sweep_empty_spectrum (frequencies : list R) (amplitude : R)
    (w : W) (a : Ana) :
  In (EvGet a (Ok []))
     (trace_of h (run_spectrum_sweep argsort generators analysers
                    sample_frequency number_samples frequencies amplitude) w) ->
  outcome_of h (run_spectrum_sweep argsort generators analysers
                  sample_frequency number_samples frequencies amplitude) w
  = Raised ValueError.
Proof.
  intros Hin.
  apply (sweep_fatal empty_spectrum_read frequencies amplitude) with (ev := EvGet a (Ok [])).
  - intros ev e [[a' ->] _]. exists a', []. reflexivity.
  - intros f a' acc spectrum e w' [[a'' E] ->]. injection E as _ ->. reflexivity.
  - exact Hin.
  - split; [exists a; reflexivity | reflexivity].
Qed.

End ScriptsOfPrograms.

Section EventsOfRuns.

Context {Gen Ana W : Type}.
Variable h : handler Gen Ana W.

Lemma in_trace_do {A : Type} (c : command Gen Ana) (k : prog Gen Ana A) (w w1 : W)
    (u : unit) (ev : event Gen Ana) :
  on_command h c w = (Ok u, w1) -> In ev (trace_of h k w1) ->
  In ev (trace_of h (Do c k) w).
Proof.
  intros Hc Hin. unfold trace_of in *. cbn [exec]. rewrite Hc.
  destruct (exec h k w1) as [[t o] w2]. right. exact Hin.
Qed.

Lemma in_trace_get {A : Type} (a : Ana) (k : list R -> prog Gen Ana A) (w w1 : W)
    (spectrum : list R) :
  on_get_spectrum h a w = (Ok spectrum, w1) ->
  In (EvGet a (Ok spectrum)) (trace_of h (GetSpectrum a k) w).
Proof.
  intros Hg. unfold trace_of. cbn [exec]. rewrite Hg.
  destruct (exec h (k spectrum) w1) as [[t o] w2]. left. reflexivity.
Qed.

Lemma in_trace_bind_l {A B : Type} (p : prog Gen Ana A) (f : A -> prog Gen Ana B)
    (w : W) (ev : event Gen Ana) :
  In ev (trace_of h p w) -> In ev (trace_of h (bind p f) w).
Proof.
  unfold trace_of. rewrite exec_bind.
  destruct (exec h p w) as [[t [a | e]] w1]; [| intros H; exact H].
  destruct (exec h (f a) w1) as [[t2 o2] w2]. simpl.
  intros H. apply in_or_app. left. exact H.
Qed.

Lemma in_trace_bind_r {A B : Type} (p : prog Gen Ana A) (f : A -> prog Gen Ana B)
    (w w1 : W) (t : list (event Gen Ana)) (a : A) (ev : event Gen Ana) :
  exec h p w = (t, Ok a, w1) -> In ev (trace_of h (f a) w1) ->
  In ev (trace_of h (bind p f) w).
Proof.
  intros Hp. unfold trace_of. rewrite exec_bind, Hp.
  destruct (exec h (f a) w1) as [[t2 o2] w2]. simpl.
  intros H. apply in_or_app. right. exact H.
Qed.

End EventsOfRuns.

(** The first read of a single analyser, with hardware that does not fail. *)
Lemma constant_spectrum_first_read (s : list R) (number_samples : Z) :
  In (EvGet (Gen := nat) 2%nat (Ok s))
     (trace_of (constant_spectrum s)
        (run_spectrum_sweep Np.argsort_insertion [0]%nat [2]%nat 2457.6e6
           number_samples [200] 0.5) tt).
Proof.
  unfold run_spectrum_sweep. apply in_trace_bind_l.
  cbn [for_each]. apply in_trace_bind_l.
  unfold frequency_body.
  eapply in_trace_bind_r; [reflexivity |].
  eapply in_trace_do; [reflexivity |].
  cbn [for_each]. apply in_trace_bind_l. unfold analyser_body.
  do 3 (eapply in_trace_do; [reflexivity |]).
  eapply in_trace_get. reflexivity.
Qed.

(** X25: with a [number_samples] of zero no sweep survives a spectrum: the
    first one an analyser returns ends it, with [ValueError] when it is empty
    and with [ZeroDivisionError] otherwise. *)
Theorem run_spectrum_sweep_zero_samples {Gen Ana W : Type} (h : handler Gen Ana W)
    (argsort : list R -> list nat) (generators : list Gen) (analysers : list Ana)
    (sample_frequency : R) (frequencies : list R) (amplitude : R) (w : W)
    (a : Ana) (spectrum : list R) :
  argsort_contract argsort ->
  In (EvGet a (Ok spectrum))
     (trace_of h (run_spectrum_sweep argsort generators analysers
                    sample_frequency 0 frequencies amplitude) w) ->
  outcome_of h (run_spectrum_sweep argsort generators analysers
                  sample_frequency 0 frequencies amplitude) w
  = Raised (match spectrum with [] => ValueError | _ => ZeroDivisionError end).
Proof.
  intros Hc Hin.
  apply (sweep_fatal h argsort generators analysers sample_frequency 0
           spectrum_read frequencies amplitude) with (ev := EvGet a (Ok spectrum)).
  - intros ev e (a' & sp & -> & _). exists a', sp. reflexivity.
  - intros f a' acc sp e w' (a'' & sp' & E & ->). injection E as _ <-.
    destruct sp as [|x sp]; [reflexivity |].
    destruct (peak_index_spec argsort Hc (x :: sp)) as (p & Hp & _); [discriminate |].
    unfold outcome_of. cbn [Np.max lift bind]. rewrite Hp. reflexivity.
  - exact Hin.
  - exists a, spectrum. split; reflexivity.
Qed.

Lemma run_spectrum_sweep_zero_samples_witness :
  outcome_of (constant_spectrum [1; 2])
    (run_spectrum_sweep Np.argsort_insertion [0]%nat [2]%nat 2457.6e6 0 [200] 0.5) tt
  = Raised ZeroDivisionError.
Proof.
  apply (run_spectrum_sweep_zero_samples (constant_spectrum [1; 2])
           Np.argsort_insertion [0]%nat [2]%nat 2457.6e6 [200] 0.5 tt 2%nat [1; 2]
           argsort_insertion_contract).
  apply constant_spectrum_first_read.
Defined.

Lemma run_spectrum_sweep_empty_spectrum_witness :
  outcome_of (constant_spectrum [])
    (run_spectrum_sweep Np.argsort_insertion [0]%nat [2]%nat 2457.6e6 12288 [200] 0.5)
    tt
  = Raised ValueError.
Proof.
  apply (run_spectrum_sweep_empty_spectrum (constant_spectrum [])
           Np.argsort_insertion [0]%nat [2]%nat 2457.6e6 12288 [200] 0.5 tt 2%nat).
  apply constant_spectrum_first_read.
Defined.

Lemma run_spectrum_sweep_script_witness :
  map call_of
    (trace_of loopback
       (run_spectrum_sweep Np.argsort_insertion [0; 1]%nat [2; 3]%nat 2457.6e6 12288
          [200; 600; 1000] 0.5) 0)
  = sweep_calls [0; 1]%nat [2; 3]%nat 2457.6e6 0.5 [200; 600; 1000].
Proof.
  apply (proj2 (run_spectrum_sweep_script loopback Np.argsort_insertion
                  [0; 1]%nat [2; 3]%nat 2457.6e6 12288 [200; 600; 1000] 0.5 0) _
           (loopback_sweep Np.argsort_insertion argsort_insertion_contract)).
Defined.

Lemma run_spectrum_sweep_calls_allowed_witness :
  sweep_call_allowed [0]%nat [2]%nat 0.5 [200; 600]
    (call_of (EvDo (UpdateSpectrum (Gen := nat) 2%nat) (Raised (HardwareError 7)))).
Proof.
  apply (run_spectrum_sweep_calls_allowed faulty Np.argsort_insertion
           [0]%nat [2]%nat 2457.6e6 12288 [200; 600] 0.5 tt).
  unfold trace_of, run_spectrum_sweep, frequency_body.
  cbn [for_each bind generator_body analyser_body exec faulty on_command
       on_get_spectrum fst In].
  do 6 right. left. reflexivity.
Defined.

(** ** The zones of the sweep *)

Lemma calculate_simple_snr_ok_nonempty (spectrum : list R) (s : R) :
  calculate_simple_snr spectrum = Ok s -> spectrum <> [].
Proof. intros H E. rewrite E in H. discriminate H. Qed.

(** X26: the two zone centres fit a sample frequency of 2457.6 MHz.  With
    that sample frequency and analysers that return [number_samples] bins,
    every fundamental a sweep records lies in the Nyquist zone of the
    frequency it was measured for: in [0, 2457.6) MHz for a frequency below
    the sample frequency and in [2457.6, 4915.2) MHz for the others. *)
Theorem run_spectrum_sweep_zone_band {Gen Ana W : Type} (h : handler Gen Ana W)
    (argsort : list R -> list nat) (generators : list Gen) (analysers : list Ana)
    (number_samples : Z) (frequencies : list R) (amplitude : R) (w : W)
    (tables : list (list (list R))) (da : Ana) :
  argsort_contract argsort ->
  outcome_of h (run_spectrum_sweep argsort generators analysers 2457.6e6
                  number_samples frequencies amplitude) w = Ok tables ->
  (forall idx, (idx < length frequencies * length analysers)%nat ->
     Z.of_nat
       (length (snd (nth idx
                       (spectra_returned
                          (trace_of h (run_spectrum_sweep argsort generators
                                         analysers 2457.6e6 number_samples
                                         frequencies amplitude) w))
                       (da, []))))
     = number_samples) ->
  forall i j, (i < length analysers)%nat -> (j < length frequencies)%nat ->
    (nth j frequencies 0 * 1e6 < 2457.6e6 ->
     0 <= nth j (nth 1 (nth i tables []) []) 0 < 2457.6) /\
    (~ nth j frequencies 0 * 1e6 < 2457.6e6 ->
     2457.6 <= nth j (nth 1 (nth i tables []) []) 0 < 4915.2).
Proof.
  intros Hc Ht Hbins i j Hi Hj.
  destruct (run_spectrum_sweep_tables_of_spectra h argsort generators analysers
              2457.6e6 number_samples frequencies amplitude w tables da Ht)
    as (_ & _ & Htab).
  destruct (Htab i Hi) as (fundamental & snr & Hrow & _ & _ & Hcol).
  rewrite Hrow. cbn [nth].
  destruct (Hcol j Hj) as [_ (f0 & Hf0 & Hfst & Hsnr)].
  cbn [fst snd] in Hfst, Hsnr. rewrite Hfst.
  assert (Hidx : (j * length analysers + i < length frequencies * length analysers)%nat)
    by nia.
  destruct (calculate_fundamental_band argsort _ 2457.6e6 number_samples
              (receive_frequency_for 2457.6e6 (nth j frequencies 0) * 1e6) Hc
              (calculate_simple_snr_ok_nonempty _ _ Hsnr) (Hbins _ Hidx))
    as (f0' & Hf0' & Hband); [lra |].
  rewrite Hf0 in Hf0'. injection Hf0' as <-.
  unfold receive_frequency_for, frequency_zones in Hband. cbn [nth] in Hband.
  destruct (Rlt_dec (nth j frequencies 0 * 1e6) 2457.6e6) as [Hlow | Hhigh];
    split; intros H; try contradiction; lra.
Qed.

Lemma constant_spectrum_returned {A : Type} (s : list R) (p : prog nat nat A) (w : unit)
    (x : nat * list R) :
  In x (spectra_returned (trace_of (constant_spectrum s) p w)) -> snd x = s.
Proof.
  unfold trace_of. revert w; induction p as [a | e | c k IH | a k IH]; intros w;
    cbn [exec constant_spectrum on_command on_get_spectrum].
  - intros [].
  - intros [].
  - specialize (IH w). destruct (exec (constant_spectrum s) k w) as [[t o] w2].
    cbn [fst spectra_returned]. exact IH.
  - specialize (IH s w). destruct (exec (constant_spectrum s) (k s) w) as [[t o] w2].
    cbn [fst spectra_returned]. intros [<- | Hin]; [reflexivity | apply IH; exact Hin].
Qed.

Lemma constant_spectrum_reliable (s : list R) : s <> [] -> reliable (constant_spectrum s).
Proof.
  intros Hs. split.
  - intros c w. exists w. reflexivity.
  - intros a w. exists s, w. split; [reflexivity | exact Hs].
Qed.

Lemma run_spectrum_sweep_zone_band_witness :
  exists tables,
    outcome_of (constant_spectrum [1; 5; 2])
      (run_spectrum_sweep Np.argsort_insertion [0]%nat [2]%nat 2457.6e6 3
         [200; 3000] 0.5) tt = Ok tables /\
    (0 <= nth 0 (nth 1 (nth 0 tables []) []) 0 < 2457.6) /\
    (2457.6 <= nth 1 (nth 1 (nth 0 tables []) []) 0 < 4915.2).
Proof.
  destruct (run_spectrum_sweep_returns (constant_spectrum [1; 5; 2])
              Np.argsort_insertion [0]%nat [2]%nat 2457.6e6 3 [200; 3000] 0.5 tt
              (constant_spectrum_reliable [1; 5; 2] ltac:(discriminate))
              argsort_insertion_contract ltac:(discriminate)) as [tables Ht].
  exists tables. split; [exact Ht |].
  assert (Hbins : forall idx, (idx < 2)%nat ->
            Z.of_nat
              (length (snd (nth idx
                 (spectra_returned
                    (trace_of (constant_spectrum [1; 5; 2])
                       (run_spectrum_sweep Np.argsort_insertion [0]%nat [2]%nat
                          2457.6e6 3 [200; 3000] 0.5) tt))
                 (0%nat, [])))) = 3%Z).
  { intros idx Hidx.
    pose proof (proj1 (proj2 (run_spectrum_sweep_tables_of_spectra
                  (constant_spectrum [1; 5; 2]) Np.argsort_insertion [0]%nat [2]%nat
                  2457.6e6 3 [200; 3000] 0.5 tt tables 0%nat Ht))) as Hlen.
    cbv zeta in Hlen. cbn [length Nat.mul Nat.add] in Hlen. rewrite <- Hlen in Hidx.
    rewrite (constant_spectrum_returned [1; 5; 2] _ tt _ (nth_In _ (0%nat, []) Hidx)).
    reflexivity. }
  pose proof (run_spectrum_sweep_zone_band (constant_spectrum [1; 5; 2])
                Np.argsort_insertion [0]%nat [2]%nat 3 [200; 3000] 0.5 tt tables
                0%nat argsort_insertion_contract Ht Hbins) as Hz.
  split.
  - apply (proj1 (Hz 0%nat 0%nat ltac:(simpl; lia) ltac:(simpl; lia))). simpl. lra.
  - apply (proj2 (Hz 0%nat 1%nat ltac:(simpl; lia) ltac:(simpl; lia))). simpl. lra.
Defined.
